(** * spacified-time-request: a shallow embedding of [src/request.ts]

    The module sends one hand-built HTTP/1.1 request over a raw socket and
    can hold back the last framing bytes of the request until a wall-clock
    instant.  This file embeds

    - [doOnTargetTime], the polling scheduler (lines 262-271),
    - [sendHeader] and [sendBody], the two transmission phases
      (lines 122-182),
    - [parseResponse], the wrapper around the [HTTPParser] of the
      [http-parser-js] package (lines 185-260),
    - [request], which wires the socket listeners to the promise
      (lines 28-90), and [connect] (lines 92-120).

    Conventions.  A [Buffer] is a Rocq [string], the sequence of its
    bytes, and a JavaScript string is the Rocq [string] of its UTF-8 bytes,
    so that [Buffer.from] is the identity and [Buffer.byteLength] is
    [String.length]; [Buffer#toString] is the UTF-8 decoder
    [Buffer_toString], which replaces what is not well-formed.  Calls of
    [console.warn] are not recorded.  The event loop is explicit: a run is a list of [Event]s, one
    per macrotask, applied to the state left by the synchronous part of
    [request]. *)

From Stdlib Require Import String Ascii List ZArith NArith Lia Bool Arith.
From Stdlib Require Import Sorting.Permutation.
From Stdlib Require Import Numbers.DecimalString.
Import ListNotations.
Open Scope string_scope.

(** ** JavaScript values used by the module *)

Definition CR : string := String "013"%char EmptyString.
Definition LF : string := String "010"%char EmptyString.
Definition CRLF : string := CR ++ LF.

(** A number that holds a time value: an integral count of milliseconds,
    or NaN.  Numbers with a fraction of a millisecond are outside the
    model; [Date.now()] never returns one. *)
Inductive JSNum : Type :=
| Num (z : Z)
| NaN.

(** [type Time = string | number | Date]; a [Date] is given by its time
    value, which is NaN for an invalid date. *)
Inductive Time : Type :=
| TString (s : string)
| TNumber (n : JSNum)
| TDate (timeValue : JSNum).

(** [if (targetTime)]: ToBoolean on an optional [Time].  [undefined], the
    empty string, [0] and [NaN] are falsy; every [Date] object is truthy. *)
Definition truthy (t : option Time) : bool :=
  match t with
  | None => false
  | Some (TString s) => negb (String.eqb s "")
  | Some (TNumber (Num z)) => negb (Z.eqb z 0)
  | Some (TNumber NaN) => false
  | Some (TDate _) => true
  end.

(** TimeClip of the Date constructor: beyond 8.64e15 ms the time value is
    NaN. *)
Definition TimeClip (n : JSNum) : JSNum :=
  match n with
  | Num z => if (Z.abs z <=? 8640000000000000)%Z then Num z else NaN
  | NaN => NaN
  end.

(** [Date.now() >= targetTimeNumber]; a comparison with NaN is false. *)
Definition js_ge (now : Z) (t : JSNum) : bool :=
  match t with
  | Num z => (z <=? now)%Z
  | NaN => false
  end.

(** [n.toString()] for a non-negative integer. *)
Definition toString (n : nat) : string :=
  NilZero.string_of_uint (Nat.to_uint n).

Definition lower_ascii (c : ascii) : ascii :=
  let n := nat_of_ascii c in
  if ((65 <=? n) && (n <=? 90))%nat then ascii_of_nat (n + 32) else c.

(** [String.prototype.toLowerCase], on the ASCII letters. *)
Fixpoint toLowerCase (s : string) : string :=
  match s with
  | EmptyString => EmptyString
  | String c s' => String (lower_ascii c) (toLowerCase s')
  end.

(** [Uint8Array.prototype.slice(start, end)]: negative positions count from
    the end, both positions are clamped to the buffer. *)
Definition slice (buffer : string) (start end_ : Z) : string :=
  let len := Z.of_nat (String.length buffer) in
  let relative i := if (i <? 0)%Z then Z.max (len + i) 0 else Z.min i len in
  let k := relative start in
  let final := relative end_ in
  substring (Z.to_nat k) (Z.to_nat (Z.max (final - k) 0)) buffer.

(** [Buffer#subarray(offset, offset + length)] for non-negative arguments. *)
Definition subarray (chunk : string) (offset length : nat) : string :=
  slice chunk (Z.of_nat offset) (Z.of_nat (offset + length)).

(** ** Objects used as string-keyed records

    A [Record<string, string>] is the list of its own properties in
    creation order, without repeated keys.  [Object.entries] and the spread
    operator enumerate array-index keys first, in ascending numeric order,
    and then the other keys in creation order. *)
Module JSObject.

Definition t : Type := list (string * string).

Definition empty : t := [].

Fixpoint get (k : string) (o : t) : option string :=
  match o with
  | [] => None
  | (k', v) :: o' => if String.eqb k k' then Some v else get k o'
  end.

(** CreateDataProperty: an existing key keeps its place and takes the new
    value, a new key goes last. *)
Fixpoint define (k v : string) (o : t) : t :=
  match o with
  | [] => [(k, v)]
  | (k', v') :: o' =>
      if String.eqb k k' then (k, v) :: o' else (k', v') :: define k v o'
  end.

(** [o[k] = v] on an ordinary object with string values: the key
    [__proto__] reaches the setter of [Object.prototype], which ignores a
    string. *)
Definition assign (k v : string) (o : t) : t :=
  if String.eqb k "__proto__" then o else define k v o.

Definition is_digit (c : ascii) : bool :=
  let n := nat_of_ascii c in ((48 <=? n) && (n <=? 57))%nat.

Fixpoint all_digits (s : string) : bool :=
  match s with
  | EmptyString => true
  | String c s' => is_digit c && all_digits s'
  end.

Fixpoint digits_value (s : string) (acc : N) : N :=
  match s with
  | EmptyString => acc
  | String c s' => digits_value s' (acc * 10 + (N_of_ascii c - 48))%N
  end.

(** An array index is the canonical decimal form of an integer below
    2^32 - 1. *)
Definition array_index (k : string) : option N :=
  match k with
  | EmptyString => None
  | String c rest =>
      if all_digits k
         && (negb (Ascii.eqb c "0"%char) || String.eqb rest "")
         && (String.length k <=? 10)%nat
      then
        let v := digits_value k 0 in
        if (v <? 4294967295)%N then Some v else None
      else None
  end.

Fixpoint insert_index (i : N) (kv : string * string)
  (l : list (N * (string * string))) : list (N * (string * string)) :=
  match l with
  | [] => [(i, kv)]
  | (j, kv') :: l' =>
      if (i <? j)%N then (i, kv) :: l else (j, kv') :: insert_index i kv l'
  end.

Fixpoint index_entries (o : t) : list (N * (string * string)) :=
  match o with
  | [] => []
  | kv :: o' =>
      match array_index (fst kv) with
      | Some i => insert_index i kv (index_entries o')
      | None => index_entries o'
      end
  end.

Definition named_entries (o : t) : list (string * string) :=
  filter (fun kv => match array_index (fst kv) with
                    | Some _ => false
                    | None => true
                    end) o.

(** [Object.entries(o)]. *)
Definition entries (o : t) : list (string * string) :=
  map snd (index_entries o) ++ named_entries o.

(** [{ ...target, ...source }]: the properties of [source] are copied
    onto [target] in the order of [entries]. *)
Definition spread (target source : t) : t :=
  fold_left (fun acc kv => define (fst kv) (snd kv) acc) (entries source) target.

End JSObject.

(** How a call of a callback ends: it returns, or it throws.  Either way
    the world is as the callback left it. *)
Inductive Completion (W : Type) : Type :=
| Returned (w : W)
| Thrown (w : W).

Arguments Returned {W} w.
Arguments Thrown {W} w.

(** ** The scheduler: [doOnTargetTime]

    [new Date(string)] depends on the host's date parser, which is a
    parameter: it maps a string to a time value or to NaN. *)
Section Scheduler.

Variable Date_parse : string -> JSNum.

(** [new Date(targetTime).getTime()]. *)
Definition getTime (targetTime : Time) : JSNum :=
  match targetTime with
  | TString s => Date_parse s
  | TNumber n => TimeClip n
  | TDate tv => tv
  end.

(** The callback is any value of a type [C]; [invoke] runs it on the state
    [W] of the rest of the program, and it may throw. *)
Context {C W : Type}.
Variable invoke : C -> W -> Completion W.

(** What the closure passed to [setInterval] captures. *)
Record Interval : Type := {
  callback : C;
  targetTimeNumber : JSNum
}.

(** The timer table of the runtime: the intervals that are armed, under
    their handles. *)
Record Timers : Type := {
  next_handle : nat;
  armed : list (nat * Interval)
}.

Definition no_timers : Timers := {| next_handle := 0; armed := [] |}.

Fixpoint find_interval (h : nat) (l : list (nat * Interval)) : option Interval :=
  match l with
  | [] => None
  | (h', iv) :: l' => if Nat.eqb h h' then Some iv else find_interval h l'
  end.

Definition setInterval (iv : Interval) (tm : Timers) : nat * Timers :=
  (next_handle tm,
   {| next_handle := S (next_handle tm);
      armed := armed tm ++ [(next_handle tm, iv)] |}).

Definition clearInterval (h : nat) (tm : Timers) : Timers :=
  {| next_handle := next_handle tm;
     armed := filter (fun p => negb (Nat.eqb (fst p) h)) (armed tm) |}.

Definition is_armed (h : nat) (tm : Timers) : bool :=
  match find_interval h (armed tm) with
  | Some _ => true
  | None => false
  end.

(** [doOnTargetTime(callback, targetTime)]: arms the interval and returns;
    nothing is invoked in the call itself.  The handle is returned for the
    statements below; the source keeps it in [timeout]. *)
Definition doOnTargetTime (cb : C) (targetTime : Time) (tm : Timers)
  : nat * Timers :=
  let targetTimeNumber := getTime targetTime in
  setInterval {| callback := cb; targetTimeNumber := targetTimeNumber |} tm.

(** One run of the interval function of handle [h], at a moment when
    [Date.now()] reads [now].  The runtime only runs armed intervals.
    [callback()] comes before [clearInterval(timeout)] (lines 267-268): an
    exception of the callback leaves the interval function at once, so the
    interval stays armed. *)
Definition interval_check (h : nat) (now : Z) (st : Timers * W) : Timers * W :=
  let (tm, w) := st in
  match find_interval h (armed tm) with
  | None => st
  | Some iv =>
      if js_ge now (targetTimeNumber iv)
      then
        match invoke (callback iv) w with
        | Returned w' => (clearInterval h tm, w')
        | Thrown w' => (tm, w')
        end
      else st
  end.

(** Successive checks of one interval, with the clock readings in order. *)
Definition interval_checks (h : nat) (nows : list Z) (st : Timers * W)
  : Timers * W :=
  fold_left (fun s now => interval_check h now s) nows st.

End Scheduler.

Arguments Interval : clear implicits.
Arguments Timers : clear implicits.

(** ** The response parser wrapper: [parseResponse] *)

(** An [Error] object, given by its message. *)
Definition JSError : Type := string.

Module HttpResponse.
Record t : Type := {
  statusCode : Z;
  statusText : string;
  headers : JSObject.t;
  body : string
}.
End HttpResponse.

(** The argument [info] of the headers-complete callback, as far as
    [parseResponse] reads it.  [headers] is the parser's flat array
    [name0, value0, name1, value1, ...], which the callback reads two
    entries at a time; it is kept as the list of those pairs. *)
Module Info.
Record t : Type := {
  statusCode : Z;
  statusMessage : option string;
  headers : list (string * string)
}.
End Info.

(** The callbacks that a run of the parser fires, with their arguments. *)
Inductive ParserEvent : Type :=
| kOnHeadersComplete (info : Info.t)
| kOnBody (chunk : string) (offset length : nat)
| kOnMessageComplete.

(** What [parser.execute(rawResponse)] gives back: the number of bytes it
    parsed, an [Error] object as its value, or an exception. *)
Inductive ExecuteResult : Type :=
| Parsed (bytesParsed : nat)
| ReturnedError (e : JSError)
| Threw (e : JSError).

(** What [parseResponse] observes of a fresh parser run on one buffer: the
    callbacks fired by [execute] and its result, then the callbacks fired by
    [finish] and whether [finish] threw. *)
Record ParserRun : Type := {
  execute_calls : list ParserEvent;
  execute_result : ExecuteResult;
  finish_calls : list ParserEvent;
  finish_threw : option JSError
}.

(** The local object [response] of [parseResponse]. *)
Module ResponseState.
Record t : Type := {
  statusCode : Z;
  statusText : string;
  headers : JSObject.t;
  bodyChunks : list string;
  body : option string
}.
Definition initial : t :=
  {| statusCode := 0; statusText := ""; headers := JSObject.empty;
     bodyChunks := []; body := None |}.
End ResponseState.

(** U+FFFD, the replacement character, in UTF-8. *)
Definition replacement : string :=
  String "239"%char (String "191"%char (String "189"%char EmptyString)).

(** The decoder at the start of a character, on the byte [b]: an ASCII byte
    stands for itself, a lead byte opens a sequence of one to three
    continuation bytes, the first of which lies between the bounds given
    here, and any other byte is replaced.  [continue] decodes what follows
    the byte, from the sequence read so far, the number of bytes it still
    needs and the bounds of its next byte. *)
Definition utf8_start (b : ascii) (continue : string -> nat -> nat -> nat -> string)
  : string :=
  let n := nat_of_ascii b in
  if (n <=? 127)%nat then String b (continue "" 0 128 191)
  else if ((194 <=? n) && (n <=? 223))%nat then
    continue (String b "") 1 128 191
  else if ((224 <=? n) && (n <=? 239))%nat then
    continue (String b "") 2
      (if (n =? 224)%nat then 160 else 128)
      (if (n =? 237)%nat then 159 else 191)
  else if ((240 <=? n) && (n <=? 244))%nat then
    continue (String b "") 3
      (if (n =? 240)%nat then 144 else 128)
      (if (n =? 244)%nat then 143 else 191)
  else replacement ++ continue "" 0 128 191.

(** UTF-8 decoding with replacement: a well-formed sequence stands for
    itself; a sequence that is cut short, by a byte out of its bounds or by
    the end of the input, is replaced by U+FFFD and the byte that cut it is
    read again as the start of a character. *)
Fixpoint utf8_decode (sequence : string) (needed lower upper : nat) (bytes : string)
  : string :=
  match bytes with
  | EmptyString =>
      match needed with
      | O => EmptyString
      | S _ => replacement
      end
  | String b rest =>
      let continue sequence needed lower upper :=
        utf8_decode sequence needed lower upper rest in
      match needed with
      | O => utf8_start b continue
      | S needed' =>
          let n := nat_of_ascii b in
          if ((lower <=? n) && (n <=? upper))%nat then
            match needed' with
            | O => sequence ++ String b (continue "" 0 128 191)
            | S _ => continue (sequence ++ String b "") needed' 128 191
            end
          else replacement ++ utf8_start b continue
      end
  end.

(** [buffer.toString()]: the bytes of the buffer decoded as UTF-8. *)
Definition Buffer_toString (buffer : string) : string :=
  utf8_decode "" 0 128 191 buffer.

(** The three callbacks installed on the parser (lines 202-226). *)
Definition on_callback (response : ResponseState.t) (ev : ParserEvent)
  : ResponseState.t :=
  match ev with
  | kOnHeadersComplete info =>
      {| ResponseState.statusCode := Info.statusCode info;
         ResponseState.statusText :=
           match Info.statusMessage info with
           | Some m => m
           | None => ""
           end;
         ResponseState.headers :=
           fold_left
             (fun h kv => JSObject.assign (toLowerCase (fst kv)) (snd kv) h)
             (Info.headers info) (ResponseState.headers response);
         ResponseState.bodyChunks := ResponseState.bodyChunks response;
         ResponseState.body := ResponseState.body response |}
  | kOnBody chunk offset length =>
      {| ResponseState.statusCode := ResponseState.statusCode response;
         ResponseState.statusText := ResponseState.statusText response;
         ResponseState.headers := ResponseState.headers response;
         ResponseState.bodyChunks :=
           ResponseState.bodyChunks response ++ [subarray chunk offset length];
         ResponseState.body := ResponseState.body response |}
  | kOnMessageComplete =>
      {| ResponseState.statusCode := ResponseState.statusCode response;
         ResponseState.statusText := ResponseState.statusText response;
         ResponseState.headers := ResponseState.headers response;
         ResponseState.bodyChunks := ResponseState.bodyChunks response;
         ResponseState.body :=
           Some (match ResponseState.bodyChunks response with
                 | [] => ""
                 | _ :: _ =>
                     Buffer_toString
                       (String.concat "" (ResponseState.bodyChunks response))
                 end) |}
  end.

(** ** The transport and the state of one [request] *)

(** The calls made on the socket, in program order. *)
Inductive SocketCall : Type :=
| TlsConnect (host : string) (port : Z)
| NetCreateConnection (port : Z) (host : string)
| SetTimeout (ms : Z)
| SocketWrite (data : string)
| SocketEnd.

(** The answer of the network to the connection attempt: the connect
    callback runs, or the socket emits ['error'] first. *)
Inductive ConnectOutcome : Type :=
| Established
| Failed (cause : JSError).

Inductive Settled : Type :=
| Pending
| Resolved (response : HttpResponse.t)
| Rejected (reason : JSError).

(** [resolve] and [reject] only act on a pending promise. *)
Definition settle (p outcome : Settled) : Settled :=
  match p with
  | Pending => outcome
  | _ => p
  end.

Record World : Type := {
  socket : list SocketCall;
  listening : bool;
  promise : Settled;
  responseData : string
}.

Definition socket_call (c : SocketCall) (w : World) : World :=
  {| socket := socket w ++ [c];
     listening := listening w;
     promise := promise w;
     responseData := responseData w |}.

(** The two closures handed to [doOnTargetTime] (lines 149-152 and
    174-177) both write one captured piece of data to the socket. *)
Inductive Callback : Type :=
| WriteLater (data : string).

(** [socket.write] of a string or a byte array and [console.warn] return:
    these closures do not throw. *)
Definition invoke (cb : Callback) (w : World) : Completion World :=
  match cb with
  | WriteLater data => Returned (socket_call (SocketWrite data) w)
  end.

Definition Runtime : Type := Timers Callback * World.

Module RequestOptions.
Record t : Type := {
  host : string;
  port : Z;
  method : option string;
  path : option string;
  headers : option JSObject.t;
  body : option string;
  targetTime : option Time;
  https : option bool
}.
End RequestOptions.

(** [connect(port, host, https)] (lines 92-120) against the answer of the
    network. *)
Definition connect (port : Z) (host : string) (https : bool)
  (net : ConnectOutcome) : list SocketCall * option JSError :=
  let calls :=
    if https
    then [TlsConnect host port; SetTimeout 30000]
    else [NetCreateConnection port host; SetTimeout 30000] in
  match net with
  | Established => (calls, None)
  | Failed cause => (calls, Some cause)
  end.

Definition written (w : World) : list string :=
  flat_map (fun c => match c with
                     | SocketWrite data => [data]
                     | _ => []
                     end) (socket w).

(** All bytes handed to [socket.write] so far, in order. *)
Definition written_bytes (w : World) : string :=
  String.concat "" (written w).

Section Request.

Variable Date_parse : string -> JSNum.

(** The [HTTPParser] of [http-parser-js] is an external package: a run of a
    fresh response parser on a buffer is a parameter. *)
Variable HTTPParser : string -> ParserRun.

(** [parseResponse(rawResponse)] (lines 185-260), together with whether
    the [catch] block ran. *)
Definition parseResponse_caught (rawResponse : string)
  : HttpResponse.t * bool :=
  let run := HTTPParser rawResponse in
  let '(response, caught) :=
    let response :=
      fold_left on_callback (execute_calls run) ResponseState.initial in
    match execute_result run with
    | Threw _ => (response, true)
    | parseResult =>
        let response := fold_left on_callback (finish_calls run) response in
        match finish_threw run with
        | Some _ => (response, true)
        | None =>
            match parseResult with
            | Parsed bytesParsed =>
                if (ResponseState.statusCode response =? 0)%Z
                then (response, true)
                else (response, false)
            | _ => (response, true)
            end
        end
    end in
  ({| HttpResponse.statusCode := ResponseState.statusCode response;
      HttpResponse.statusText := ResponseState.statusText response;
      HttpResponse.headers := ResponseState.headers response;
      HttpResponse.body :=
        match ResponseState.body response with
        | Some b => b
        | None => ""
        end |},
   caught).

Definition parseResponse (rawResponse : string) : HttpResponse.t :=
  fst (parseResponse_caught rawResponse).

(** The pieces that [sendHeader] builds (lines 137-143). *)
Definition headerLines (headers : JSObject.t) : string :=
  String.concat CRLF
    (map (fun kv => fst kv ++ ": " ++ snd kv) (JSObject.entries headers)).

Definition requestLine (method path : string) : string :=
  method ++ " " ++ path ++ " HTTP/1.1" ++ CRLF.

Definition requestHead (headers : JSObject.t) (method path : string) : string :=
  requestLine method path ++ headerLines headers.

Definition emptyRow : string := CRLF ++ CRLF.

(** [sendHeader(socket, { headers, method, path }, targetTime)]
    (lines 122-157).  [request] always passes a socket, so the branch on a
    missing one is left out, here and in [sendBody]. *)
Definition sendHeader (headers : JSObject.t) (method path : string)
  (targetTime : option Time) (rt : Runtime) : Runtime :=
  let (tm, w) := rt in
  let w := socket_call (SocketWrite (requestHead headers method path)) w in
  match targetTime with
  | Some t =>
      if truthy targetTime
      then (snd (doOnTargetTime Date_parse (WriteLater emptyRow) t tm), w)
      else (tm, socket_call (SocketWrite emptyRow) w)
  | None => (tm, socket_call (SocketWrite emptyRow) w)
  end.

(** The two slices that [sendBody] takes of the body (lines 165-168). *)
Definition baseChunk (body : string) : string :=
  let buffer := body in
  slice buffer 0 (Z.of_nat (String.length buffer) - 1).

Definition endChunk (body : string) : string :=
  let buffer := body in
  slice buffer (Z.of_nat (String.length buffer) - 1)
    (Z.of_nat (String.length buffer)).

(** [sendBody(socket, body, targetTime)] (lines 160-182). *)
Definition sendBody (body : string) (targetTime : option Time) (rt : Runtime)
  : Runtime :=
  let (tm, w) := rt in
  let w := socket_call (SocketWrite (baseChunk body)) w in
  match targetTime with
  | Some t =>
      if truthy targetTime
      then (snd (doOnTargetTime Date_parse (WriteLater (endChunk body)) t tm), w)
      else (tm, socket_call (SocketWrite (endChunk body)) w)
  | None => (tm, socket_call (SocketWrite (endChunk body)) w)
  end.

Definition defaultHeaders (host : string) : JSObject.t :=
  [("Host", host); ("Connection", "keep-alive"); ("accept", "application/json")].

Definition option_default {A : Type} (d : A) (o : option A) : A :=
  match o with
  | Some a => a
  | None => d
  end.

(** [isHasBodyRequest] (line 62); [!!body] holds of a non-empty string. *)
Definition isHasBodyRequest (_options : RequestOptions.t) : bool :=
  let body := option_default "" (RequestOptions.body _options) in
  let method := option_default "GET" (RequestOptions.method _options) in
  negb (String.eqb body "") && negb (String.eqb method "GET")
  && negb (String.eqb method "HEAD").

(** [requestHeaders] as [request] computes it (lines 55-66). *)
Definition requestHeaders (_options : RequestOptions.t) : JSObject.t :=
  let host := RequestOptions.host _options in
  let headers := option_default JSObject.empty (RequestOptions.headers _options) in
  let body := option_default "" (RequestOptions.body _options) in
  let requestHeaders := JSObject.spread (defaultHeaders host) headers in
  if isHasBodyRequest _options
  then JSObject.assign "Content-Length" (toString (String.length body)) requestHeaders
  else requestHeaders.

(** [request(_options)] (lines 28-90) up to the point where it gives
    control back to the event loop: the connection attempt, the
    registration of the two listeners, [sendHeader] and, in the microtask
    that follows it, [sendBody]. *)
Definition request (_options : RequestOptions.t) (net : ConnectOutcome)
  : Runtime :=
  let host := RequestOptions.host _options in
  let port := RequestOptions.port _options in
  let path := option_default "/" (RequestOptions.path _options) in
  let method := option_default "GET" (RequestOptions.method _options) in
  let body := option_default "" (RequestOptions.body _options) in
  let https := option_default false (RequestOptions.https _options) in
  let targetTime := RequestOptions.targetTime _options in
  match connect port host https net with
  | (calls, Some cause) =>
      (no_timers,
       {| socket := calls; listening := false;
          promise := Rejected cause; responseData := "" |})
  | (calls, None) =>
      let rt : Runtime :=
        (no_timers,
         {| socket := calls; listening := true;
            promise := Pending; responseData := "" |}) in
      let rt :=
        sendHeader (requestHeaders _options) method path
          (if isHasBodyRequest _options then None else targetTime) rt in
      if isHasBodyRequest _options
      then sendBody body targetTime rt
      else rt
  end.

(** One macrotask of the event loop after [request] has returned. *)
Inductive Event : Type :=
| Data (chunk : string)
| SocketError (e : JSError)
| IntervalFires (handle : nat) (now : Z).

(** The ['data'] listener (lines 72-77). *)
Definition on_data (chunk : string) (w : World) : World :=
  let responseData := responseData w ++ chunk in
  socket_call SocketEnd
    {| socket := socket w;
       listening := listening w;
       promise := settle (promise w) (Resolved (parseResponse responseData));
       responseData := responseData |}.

(** The ['error'] listener (line 79). *)
Definition on_error (e : JSError) (w : World) : World :=
  {| socket := socket w;
     listening := listening w;
     promise := settle (promise w) (Rejected e);
     responseData := responseData w |}.

Definition step (rt : Runtime) (ev : Event) : Runtime :=
  match ev with
  | Data chunk =>
      if listening (snd rt) then (fst rt, on_data chunk (snd rt)) else rt
  | SocketError e =>
      if listening (snd rt) then (fst rt, on_error e (snd rt)) else rt
  | IntervalFires h now => interval_check invoke h now rt
  end.

Definition run (events : list Event) (rt : Runtime) : Runtime :=
  fold_left step events rt.

End Request.

(** ** A response parser to run the wrapper on concrete bytes

    Modelled from the spec: the [HTTPParser] class of the [http-parser-js]
    package is not among the sources.  The module below is a parser after
    the parsing algorithm that the specification gives for the response
    assembler; the statements that are meant for every parser take the
    parser as a parameter instead. *)

Module ModelParser.

Definition drop (n : nat) (s : string) : string :=
  substring n (String.length s - n) s.

(** The line that starts at [off], without its CRLF, and the offset after
    that CRLF. *)
Definition read_line (raw : string) (off : nat) : option (string * nat) :=
  let rest := drop off raw in
  match index 0 CRLF rest with
  | Some i => Some (substring 0 i rest, off + i + 2)
  | None => None
  end.

Definition is_space (c : ascii) : bool :=
  Ascii.eqb c " "%char || Ascii.eqb c "009"%char.

Fixpoint trim_left (s : string) : string :=
  match s with
  | String c s' => if is_space c then trim_left s' else s
  | EmptyString => EmptyString
  end.

Fixpoint trim_right (s : string) : string :=
  match s with
  | String c s' =>
      match trim_right s' with
      | EmptyString => if is_space c then EmptyString else String c EmptyString
      | t => String c t
      end
  | EmptyString => EmptyString
  end.

Definition trim (s : string) : string := trim_right (trim_left s).

Definition decimal (s : string) : option N :=
  match s with
  | EmptyString => None
  | _ => if JSObject.all_digits s then Some (JSObject.digits_value s 0) else None
  end.

Definition hex_digit (c : ascii) : option N :=
  let n := N_of_ascii c in
  if ((48 <=? n) && (n <=? 57))%N then Some (n - 48)%N
  else if ((97 <=? n) && (n <=? 102))%N then Some (n - 87)%N
  else if ((65 <=? n) && (n <=? 70))%N then Some (n - 55)%N
  else None.

Fixpoint hex_value (s : string) (acc : N) : option N :=
  match s with
  | EmptyString => Some acc
  | String c s' =>
      match hex_digit c with
      | Some d => hex_value s' (acc * 16 + d)%N
      | None => None
      end
  end.

Definition hexadecimal (s : string) : option N :=
  match s with
  | EmptyString => None
  | _ => hex_value s 0
  end.

(** [HTTP/<ver> SP <code> SP <reason>]. *)
Definition status_line (line : string) : option (Z * string) :=
  if prefix "HTTP/" line then
    let rest := drop 5 line in
    match index 0 " " rest with
    | Some (S i) =>
        let rest := drop (S i + 1) rest in
        match index 0 " " rest with
        | Some j =>
            match decimal (substring 0 j rest) with
            | Some code => Some (Z.of_N code, drop (j + 1) rest)
            | None => None
            end
        | None => None
        end
    | _ => None
    end
  else None.

(** [Name: Value], the value trimmed. *)
Definition header_line (line : string) : option (string * string) :=
  match index 0 ":" line with
  | Some i => Some (substring 0 i line, trim (drop (i + 1) line))
  | None => None
  end.

Inductive Headers : Type :=
| HeadersDone (headers : list (string * string)) (off : nat)
| HeadersPending
| HeadersMalformed.

Fixpoint header_lines (fuel : nat) (raw : string) (off : nat)
  (acc : list (string * string)) : Headers :=
  match fuel with
  | O => HeadersMalformed
  | S fuel' =>
      match read_line raw off with
      | None => HeadersPending
      | Some (EmptyString, off') => HeadersDone acc off'
      | Some (line, off') =>
          match header_line line with
          | Some kv => header_lines fuel' raw off' (acc ++ [kv])
          | None => HeadersMalformed
          end
      end
  end.

Fixpoint header (name : string) (headers : list (string * string))
  : option string :=
  match headers with
  | [] => None
  | (k, v) :: rest =>
      if String.eqb (toLowerCase k) name then Some v else header name rest
  end.

Inductive Framing : Type :=
| ContentLength (n : nat)
| Chunked
| UntilClose.

Definition framing (headers : list (string * string)) : option Framing :=
  match header "content-length" headers with
  | Some v =>
      match decimal v with
      | Some n => Some (ContentLength (N.to_nat n))
      | None => None
      end
  | None =>
      match header "transfer-encoding" headers with
      | Some v =>
          if String.eqb (toLowerCase v) "chunked" then Some Chunked
          else Some UntilClose
      | None => Some UntilClose
      end
  end.

Inductive Progress : Type :=
| Complete (off : nat)
| Waiting
| Malformed.

Definition body_call (raw : string) (off len : nat) : list ParserEvent :=
  match len with
  | O => []
  | S _ => [kOnBody raw off len]
  end.

(** Chunk-size-prefixed segments, up to the zero-size chunk and its CRLF. *)
Fixpoint chunks (fuel : nat) (raw : string) (off : nat)
  : list ParserEvent * Progress :=
  match fuel with
  | O => ([], Malformed)
  | S fuel' =>
      match read_line raw off with
      | None => ([], Waiting)
      | Some (line, off') =>
          match hexadecimal line with
          | None => ([], Malformed)
          | Some 0%N =>
              match read_line raw off' with
              | Some (EmptyString, off'') => ([], Complete off'')
              | Some _ => ([], Malformed)
              | None => ([], Waiting)
              end
          | Some size =>
              let size := N.to_nat size in
              let available := String.length raw - off' in
              if (available <? size + 2)%nat then
                (body_call raw off' (Nat.min size available), Waiting)
              else if String.eqb (substring (off' + size) 2 raw) CRLF then
                let (calls, p) := chunks fuel' raw (off' + size + 2) in
                (kOnBody raw off' size :: calls, p)
              else ([kOnBody raw off' size], Malformed)
          end
      end
  end.

Definition parse_error : JSError := "ParseError".

(** Modelled from the spec: the [HTTPParser] class of the [http-parser-js]
    package, which [parseResponse] drives, is missing from the sources.
    This run of a fresh parser on one buffer follows the parsing algorithm
    of the response assembler: a status line [HTTP/<ver> SP <code> SP
    <reason> CRLF], header lines [Name: Value CRLF] up to an empty line,
    then a body framed by [Content-Length], by chunked transfer encoding, or
    by the end of the stream, which [finish] signals.  Malformed input makes
    [execute] return an error. *)
Definition HTTPParser (raw : string) : ParserRun :=
  let total := String.length raw in
  let pending calls :=
    {| execute_calls := calls; execute_result := Parsed total;
       finish_calls := []; finish_threw := None |} in
  let malformed calls :=
    {| execute_calls := calls; execute_result := ReturnedError parse_error;
       finish_calls := []; finish_threw := None |} in
  match read_line raw 0 with
  | None => pending []
  | Some (line, off) =>
      match status_line line with
      | None => malformed []
      | Some (code, reason) =>
          match header_lines (S total) raw off [] with
          | HeadersPending => pending []
          | HeadersMalformed => malformed []
          | HeadersDone headers off =>
              let info :=
                {| Info.statusCode := code;
                   Info.statusMessage := Some reason;
                   Info.headers := headers |} in
              match framing headers with
              | None => malformed []
              | Some (ContentLength n) =>
                  let available := total - off in
                  if (available <? n)%nat then
                    pending (kOnHeadersComplete info :: body_call raw off available)
                  else
                    {| execute_calls :=
                         kOnHeadersComplete info :: body_call raw off n
                         ++ [kOnMessageComplete];
                       execute_result := Parsed (off + n);
                       finish_calls := []; finish_threw := None |}
              | Some Chunked =>
                  match chunks (S total) raw off with
                  | (calls, Complete off') =>
                      {| execute_calls :=
                           kOnHeadersComplete info :: calls ++ [kOnMessageComplete];
                         execute_result := Parsed off';
                         finish_calls := []; finish_threw := None |}
                  | (calls, Waiting) => pending (kOnHeadersComplete info :: calls)
                  | (calls, Malformed) => malformed (kOnHeadersComplete info :: calls)
                  end
              | Some UntilClose =>
                  {| execute_calls :=
                       kOnHeadersComplete info :: body_call raw off (total - off);
                     execute_result := Parsed total;
                     finish_calls := [kOnMessageComplete];
                     finish_threw := None |}
              end
          end
      end
  end.

End ModelParser.

Definition sample_response : string :=
  "HTTP/1.1 200 OK" ++ CRLF ++ "Content-Length: 2" ++ CRLF ++ CRLF ++ "OK".

Definition chunked_response : string :=
  "HTTP/1.1 200 OK" ++ CRLF ++ "Transfer-Encoding: chunked" ++ CRLF ++ CRLF
  ++ "1A" ++ CRLF ++ "abcdefghijklmnopqrstuvwxyz" ++ CRLF ++ "0" ++ CRLF ++ CRLF.

(** ** Definitions used by the statements *)

(** Handles are handed out in increasing order: every armed handle is below
    the next one. *)
Definition timers_wf {C : Type} (tm : Timers C) : Prop :=
  Forall (fun p => fst p < next_handle tm) (armed tm).

(** A caller's object has no repeated key. *)
Definition unique_keys (o : JSObject.t) : Prop := NoDup (map fst o).

(** Header names that differ at most in letter case. *)
Definition same_name_ignoring_case (k1 k2 : string) : Prop :=
  toLowerCase k1 = toLowerCase k2.

(** Interval macrotasks, given as pairs of a handle and a clock reading. *)
Definition interval_events (ticks : list (nat * Z)) : list Event :=
  map (fun t => IntervalFires (fst t) (snd t)) ticks.

(** A callback that counts its invocations. *)
Definition count_invocation (_ : unit) (n : nat) : Completion nat :=
  Returned (S n).

(** A callback that counts its invocations and throws every time. *)
Definition count_and_throw (_ : unit) (n : nat) : Completion nat :=
  Thrown (S n).

(** The zero-valued response that [parseResponse] starts from. *)
Definition zero_response : HttpResponse.t :=
  {| HttpResponse.statusCode := 0;
     HttpResponse.statusText := "";
     HttpResponse.headers := JSObject.empty;
     HttpResponse.body := "" |}.

(** The transmission plan of a request: the last unit that makes the
    request complete is the last body byte when a body is sent and the blank
    line otherwise; it is held back when the target time is truthy, and
    everything before it is written at once. *)
Definition effective_method (_options : RequestOptions.t) : string :=
  option_default "GET" (RequestOptions.method _options).

Definition effective_path (_options : RequestOptions.t) : string :=
  option_default "/" (RequestOptions.path _options).

Definition effective_body (_options : RequestOptions.t) : string :=
  option_default "" (RequestOptions.body _options).

Definition caller_headers (_options : RequestOptions.t) : JSObject.t :=
  option_default JSObject.empty (RequestOptions.headers _options).

Definition headerBytes (_options : RequestOptions.t) : string :=
  requestHead (requestHeaders _options) (effective_method _options)
    (effective_path _options).

Definition last_unit (_options : RequestOptions.t) : string :=
  if isHasBodyRequest _options
  then endChunk (effective_body _options)
  else emptyRow.

Definition before_last_unit (_options : RequestOptions.t) : list string :=
  if isHasBodyRequest _options
  then [headerBytes _options; emptyRow; baseChunk (effective_body _options)]
  else [headerBytes _options].

Definition immediate_writes (_options : RequestOptions.t) : list string :=
  before_last_unit _options
  ++ (if truthy (RequestOptions.targetTime _options)
      then []
      else [last_unit _options]).

Definition delayed_write (Date_parse : string -> JSNum)
  (_options : RequestOptions.t) : list (nat * Interval Callback) :=
  match RequestOptions.targetTime _options with
  | Some t =>
      if truthy (RequestOptions.targetTime _options)
      then [(0, {| callback := WriteLater (last_unit _options);
                   targetTimeNumber := getTime Date_parse t |})]
      else []
  | None => []
  end.

(** A host date parser that knows the string of [src/index.ts], read as
    UTC, and no other. *)
Definition sample_Date_parse (s : string) : JSNum :=
  if String.eqb s "2025/12/3 17:03:40" then Num 1764781420000 else NaN.

Definition options (method : string) (headers : JSObject.t) (body : string)
  (targetTime : option Time) : RequestOptions.t :=
  {| RequestOptions.host := "localhost";
     RequestOptions.port := 80;
     RequestOptions.method := Some method;
     RequestOptions.path := None;
     RequestOptions.headers := Some headers;
     RequestOptions.body := Some body;
     RequestOptions.targetTime := targetTime;
     RequestOptions.https := None |}.

(** The call of [src/index.ts]. *)
Definition index_options : RequestOptions.t :=
  {| RequestOptions.host := "localhost";
     RequestOptions.port := 80;
     RequestOptions.method := Some "GET";
     RequestOptions.path := None;
     RequestOptions.headers := None;
     RequestOptions.body := None;
     RequestOptions.targetTime := Some (TString "2025/12/3 17:03:40");
     RequestOptions.https := None |}.

Definition sample_response_head : string :=
  "HTTP/1.1 200 OK" ++ CRLF ++ "Content-Length: 2" ++ CRLF ++ CRLF ++ "O".

Definition malformed_response : string := "NOT HTTP" ++ CRLF ++ CRLF.

(** ** Definitions used by the further statements *)

(** The events that release the delayed write of a request: a check of its
    interval, whose handle is 0, at a clock reading that has reached the
    target. *)
Definition releases (target : JSNum) (ev : Event) : bool :=
  match ev with
  | IntervalFires 0 now => js_ge now target
  | _ => false
  end.

Definition is_data (ev : Event) : bool :=
  match ev with
  | Data _ => true
  | _ => false
  end.

Definition is_end (c : SocketCall) : bool :=
  match c with
  | SocketEnd => true
  | _ => false
  end.

(** How often [socket.end()] has been called. *)
Definition ends (w : World) : nat := List.length (filter is_end (socket w)).

(** The bytes of the ['data'] events of a run, in order. *)
Fixpoint received (events : list Event) : string :=
  match events with
  | [] => ""
  | Data chunk :: rest => chunk ++ received rest
  | _ :: rest => received rest
  end.

(** The callbacks that reach [parseResponse]: those of [execute] and, unless
    [execute] threw, those of [finish]. *)
Definition callbacks_run (r : ParserRun) : list ParserEvent :=
  (execute_calls r
   ++ match execute_result r with
      | Threw _ => []
      | _ => finish_calls r
      end)%list.

(** The header pairs of the headers-complete callbacks, in order. *)
Definition reported_headers (calls : list ParserEvent) : list (string * string) :=
  flat_map (fun ev => match ev with
                      | kOnHeadersComplete info => Info.headers info
                      | _ => []
                      end) calls.

(** The value of the last pair whose name is [name] up to letter case. *)
Fixpoint last_value (name : string) (hs : list (string * string)) : option string :=
  match hs with
  | [] => None
  | (k, v) :: rest =>
      match last_value name rest with
      | Some v' => Some v'
      | None => if String.eqb (toLowerCase k) name then Some v else None
      end
  end.

Definition is_message_complete (ev : ParserEvent) : bool :=
  match ev with
  | kOnMessageComplete => true
  | _ => false
  end.

(** The slices handed to the body callback, in order. *)
Definition body_slices (calls : list ParserEvent) : list string :=
  flat_map (fun ev => match ev with
                      | kOnBody chunk offset length => [subarray chunk offset length]
                      | _ => []
                      end) calls.

(** Whether every byte is an ASCII byte. *)
Fixpoint all_ascii (bytes : string) : bool :=
  match bytes with
  | EmptyString => true
  | String b rest => (nat_of_ascii b <=? 127)%nat && all_ascii rest
  end.

(** The response that [parseResponse] returns (lines 254-259) for a final
    state of its local object. *)
Definition response_of (response : ResponseState.t) : HttpResponse.t :=
  {| HttpResponse.statusCode := ResponseState.statusCode response;
     HttpResponse.statusText := ResponseState.statusText response;
     HttpResponse.headers := ResponseState.headers response;
     HttpResponse.body :=
       match ResponseState.body response with
       | Some b => b
       | None => ""
       end |}.

(** A response that repeats a header name in two spellings. *)
Definition two_cookies_response : string :=
  "HTTP/1.1 200 OK" ++ CRLF ++ "Set-Cookie: a=1" ++ CRLF
  ++ "set-cookie: b=2" ++ CRLF ++ "Content-Length: 0" ++ CRLF ++ CRLF.

(** A parser that fires the callbacks of [P] and then reports failure in
    every way it can without throwing from [execute]. *)
Definition erring (P : string -> ParserRun) (raw : string) : ParserRun :=
  {| execute_calls := execute_calls (P raw);
     execute_result := ReturnedError "HPE_INVALID_CONSTANT";
     finish_calls := match execute_result (P raw) with
                     | Threw _ => []
                     | _ => finish_calls (P raw)
                     end;
     finish_threw := Some "invalid state for EOF" |}.

(** ** The scheduler *)

Section SchedulerFacts.

Variable Date_parse : string -> JSNum.
Context {C W : Type}.
Variable invoke : C -> W -> Completion W.

Lemma find_interval_fresh :
  forall (l : list (nat * Interval C)) (h : nat) (iv : Interval C),
    Forall (fun p => fst p < h) l ->
    find_interval h (l ++ [(h, iv)]) = Some iv.
Proof.
  induction l as [|[h' iv'] l IH]; intros h iv Hlt; simpl.
  - now rewrite Nat.eqb_refl.
  - inversion Hlt as [|? ? Hh Hl]; subst; simpl in Hh.
    destruct (Nat.eqb_spec h h') as [->|_]; [lia|].
    now apply IH.
Qed.

Lemma find_interval_cleared :
  forall (l : list (nat * Interval C)) (h : nat),
    find_interval h (filter (fun p => negb (Nat.eqb (fst p) h)) l) = None.
Proof.
  induction l as [|[h' iv'] l IH]; intros h; simpl; [reflexivity|].
  destruct (Nat.eqb_spec h' h) as [->|Hne]; simpl; [apply IH|].
  destruct (Nat.eqb_spec h h') as [->|_]; [contradiction|apply IH].
Qed.

Lemma doOnTargetTime_arms :
  forall (cb : C) (targetTime : Time) (tm : Timers C),
    timers_wf tm ->
    find_interval (fst (doOnTargetTime Date_parse cb targetTime tm))
      (armed (snd (doOnTargetTime Date_parse cb targetTime tm)))
    = Some {| callback := cb; targetTimeNumber := getTime Date_parse targetTime |}.
Proof.
  intros cb targetTime tm Hwf; simpl.
  now apply find_interval_fresh.
Qed.

Lemma interval_check_early :
  forall (h : nat) (now : Z) (tm : Timers C) (w : W) (iv : Interval C),
    find_interval h (armed tm) = Some iv ->
    js_ge now (targetTimeNumber iv) = false ->
    interval_check invoke h now (tm, w) = (tm, w).
Proof.
  intros h now tm w iv Hfind Hge; unfold interval_check.
  now rewrite Hfind, Hge.
Qed.

Lemma interval_check_due :
  forall (h : nat) (now : Z) (tm : Timers C) (w w' : W) (iv : Interval C),
    find_interval h (armed tm) = Some iv ->
    js_ge now (targetTimeNumber iv) = true ->
    invoke (callback iv) w = Returned w' ->
    interval_check invoke h now (tm, w) = (clearInterval h tm, w').
Proof.
  intros h now tm w w' iv Hfind Hge Hret; unfold interval_check.
  now rewrite Hfind, Hge, Hret.
Qed.

Lemma interval_check_thrown :
  forall (h : nat) (now : Z) (tm : Timers C) (w w' : W) (iv : Interval C),
    find_interval h (armed tm) = Some iv ->
    js_ge now (targetTimeNumber iv) = true ->
    invoke (callback iv) w = Thrown w' ->
    interval_check invoke h now (tm, w) = (tm, w').
Proof.
  intros h now tm w w' iv Hfind Hge Hthrown; unfold interval_check.
  now rewrite Hfind, Hge, Hthrown.
Qed.

Lemma interval_checks_early :
  forall (h : nat) (nows : list Z) (tm : Timers C) (w : W) (iv : Interval C),
    find_interval h (armed tm) = Some iv ->
    Forall (fun now => js_ge now (targetTimeNumber iv) = false) nows ->
    interval_checks invoke h nows (tm, w) = (tm, w).
Proof.
  intros h nows tm w iv Hfind Hall; unfold interval_checks.
  induction Hall as [|now nows Hnow _ IH]; cbn [fold_left]; [reflexivity|].
  now rewrite (interval_check_early h now tm w iv Hfind Hnow).
Qed.

Lemma interval_checks_cleared :
  forall (h : nat) (nows : list Z) (tm : Timers C) (w : W),
    interval_checks invoke h nows (clearInterval h tm, w)
    = (clearInterval h tm, w).
Proof.
  intros h nows tm w; unfold interval_checks.
  induction nows as [|now nows IH]; cbn [fold_left]; [reflexivity|].
  replace (interval_check invoke h now (clearInterval h tm, w))
    with (clearInterval h tm, w); [exact IH|].
  unfold interval_check; cbn [clearInterval armed].
  now rewrite find_interval_cleared.
Qed.

Lemma js_ge_NaN : forall now : Z, js_ge now NaN = false.
Proof. reflexivity. Qed.

End SchedulerFacts.

(** C2, as amended.  [doOnTargetTime(callback, targetTime)] invokes nothing
    by itself; the checks whose clock reading is below the target leave the
    world untouched and the interval armed; when the callback returns, the
    first check whose reading has reached the target invokes it, once, and
    clears the interval, so that no later check invokes it again. *)
Theorem doOnTargetTime_fires_once_at_first_due_check :
  forall (Date_parse : string -> JSNum) (C W : Type)
         (invoke : C -> W -> Completion W)
         (cb : C) (targetTime : Time) (tm : Timers C) (w w' : W)
         (early late : list Z) (now : Z),
    timers_wf tm ->
    Forall (fun t => js_ge t (getTime Date_parse targetTime) = false) early ->
    js_ge now (getTime Date_parse targetTime) = true ->
    invoke cb w = Returned w' ->
    let h := fst (doOnTargetTime Date_parse cb targetTime tm) in
    let tm' := snd (doOnTargetTime Date_parse cb targetTime tm) in
    interval_checks invoke h early (tm', w) = (tm', w)
    /\ is_armed h tm' = true
    /\ interval_checks invoke h (early ++ [now]) (tm', w)
       = (clearInterval h tm', w')
    /\ is_armed h (clearInterval h tm') = false
    /\ interval_checks invoke h (early ++ now :: late) (tm', w)
       = (clearInterval h tm', w').
Proof.
  intros Date_parse C W invoke cb targetTime tm w w' early late now
         Hwf Hearly Hnow Hret h tm'.
  pose proof (doOnTargetTime_arms Date_parse cb targetTime tm Hwf) as Hfind.
  fold h tm' in Hfind.
  assert (Hquiet : interval_checks invoke h early (tm', w) = (tm', w))
    by (eapply interval_checks_early; [exact Hfind | exact Hearly]).
  assert (Hfire : interval_check invoke h now (tm', w)
                  = (clearInterval h tm', w'))
    by (now rewrite (interval_check_due invoke h now tm' w w' _ Hfind Hnow Hret)).
  repeat split.
  - exact Hquiet.
  - unfold is_armed; now rewrite Hfind.
  - unfold interval_checks in *.
    rewrite fold_left_app, Hquiet; cbn [fold_left]. exact Hfire.
  - unfold is_armed, clearInterval; simpl.
    now rewrite find_interval_cleared.
  - unfold interval_checks in *.
    rewrite fold_left_app, Hquiet; cbn [fold_left]. rewrite Hfire.
    apply (interval_checks_cleared invoke h late tm').
Qed.

Lemma doOnTargetTime_fires_once_witness :
  let h := fst (doOnTargetTime sample_Date_parse tt (TNumber (Num 1000)) no_timers) in
  let tm' := snd (doOnTargetTime sample_Date_parse tt (TNumber (Num 1000)) no_timers) in
  interval_checks count_invocation h [998; 999]%Z (tm', 0) = (tm', 0)
  /\ is_armed h tm' = true
  /\ interval_checks count_invocation h ([998; 999]%Z ++ [1000]%Z)%list (tm', 0)
     = (clearInterval h tm', 1)
  /\ is_armed h (clearInterval h tm') = false
  /\ interval_checks count_invocation h ([998; 999]%Z ++ 1000%Z :: [1001; 1002; 5000]%Z)%list (tm', 0)
     = (clearInterval h tm', 1).
Proof.
  apply (doOnTargetTime_fires_once_at_first_due_check
           sample_Date_parse unit nat count_invocation tt (TNumber (Num 1000))
           no_timers 0 1 [998; 999]%Z [1001; 1002; 5000]%Z 1000%Z).
  - constructor.
  - repeat constructor.
  - reflexivity.
  - reflexivity.
Defined.

(** C2, as stated, fails for a callback that throws: the exception skips
    [clearInterval], the interval stays armed, and every later check that
    reads a clock at or past the target invokes the callback again. *)
Lemma throwing_callback_is_invoked_at_every_due_check :
  let h := fst (doOnTargetTime sample_Date_parse tt (TNumber (Num 1000)) no_timers) in
  let tm' := snd (doOnTargetTime sample_Date_parse tt (TNumber (Num 1000)) no_timers) in
  interval_checks count_and_throw h [999; 1000]%Z (tm', 0) = (tm', 1)
  /\ interval_checks count_and_throw h [999; 1000; 1001; 1002]%Z (tm', 0) = (tm', 3)
  /\ is_armed h
       (fst (interval_checks count_and_throw h [999; 1000; 1001; 1002]%Z (tm', 0)))
     = true.
Proof. repeat split. Qed.

(** C10.  When [new Date(targetTime).getTime()] is NaN, no check ever
    invokes the callback and the interval stays armed, whatever the clock
    reads. *)
Theorem doOnTargetTime_NaN_never_fires :
  forall (Date_parse : string -> JSNum) (C W : Type)
         (invoke : C -> W -> Completion W)
         (cb : C) (targetTime : Time) (tm : Timers C) (w : W) (nows : list Z),
    timers_wf tm ->
    getTime Date_parse targetTime = NaN ->
    let h := fst (doOnTargetTime Date_parse cb targetTime tm) in
    let tm' := snd (doOnTargetTime Date_parse cb targetTime tm) in
    interval_checks invoke h nows (tm', w) = (tm', w)
    /\ is_armed h (fst (interval_checks invoke h nows (tm', w))) = true.
Proof.
  intros Date_parse C W invoke cb targetTime tm w nows Hwf HNaN h tm'.
  pose proof (doOnTargetTime_arms Date_parse cb targetTime tm Hwf) as Hfind.
  fold h tm' in Hfind.
  assert (Hquiet : interval_checks invoke h nows (tm', w) = (tm', w)).
  { eapply interval_checks_early; [exact Hfind|].
    simpl. rewrite HNaN. apply Forall_forall. intros; apply js_ge_NaN. }
  split; [exact Hquiet|].
  rewrite Hquiet; simpl. unfold is_armed. now rewrite Hfind.
Qed.

Lemma doOnTargetTime_NaN_never_fires_witness :
  let h := fst (doOnTargetTime sample_Date_parse tt (TString "tomorrow") no_timers) in
  let tm' := snd (doOnTargetTime sample_Date_parse tt (TString "tomorrow") no_timers) in
  interval_checks count_invocation h [0; 1764781420000; 9000000000000000]%Z (tm', 0)
  = (tm', 0)
  /\ is_armed h
       (fst (interval_checks count_invocation h
               [0; 1764781420000; 9000000000000000]%Z (tm', 0))) = true.
Proof.
  apply (doOnTargetTime_NaN_never_fires
           sample_Date_parse unit nat count_invocation tt (TString "tomorrow")
           no_timers 0 [0; 1764781420000; 9000000000000000]%Z).
  - constructor.
  - reflexivity.
Defined.

(** ** Objects: lookup, definition and enumeration *)

Module JSObjectFacts.
Import JSObject.

Lemma get_define_same :
  forall (k v : string) (o : t), get k (define k v o) = Some v.
Proof.
  intros k v o; induction o as [|[k' v'] o IH]; simpl.
  - now rewrite String.eqb_refl.
  - destruct (String.eqb_spec k k') as [->|Hne]; simpl.
    + now rewrite String.eqb_refl.
    + destruct (String.eqb_spec k k'); [contradiction|exact IH].
Qed.

Lemma get_define_other :
  forall (k k' v : string) (o : t),
    k <> k' -> get k (define k' v o) = get k o.
Proof.
  intros k k' v o Hne; induction o as [|[k1 v1] o IH]; simpl.
  - destruct (String.eqb_spec k k'); [contradiction|reflexivity].
  - destruct (String.eqb_spec k' k1) as [->|Hne1]; simpl.
    + destruct (String.eqb_spec k k1); [contradiction|reflexivity].
    + destruct (String.eqb_spec k k1); [reflexivity|exact IH].
Qed.

Lemma in_keys_define :
  forall (k v x : string) (o : t),
    In x (map fst (define k v o)) -> x = k \/ In x (map fst o).
Proof.
  intros k v x o; induction o as [|[k' v'] o IH]; simpl.
  - intros [<-|[]]; now left.
  - destruct (String.eqb_spec k k') as [->|Hne]; simpl.
    + intros [<-|Hin]; [now left|now right; right].
    + intros [<-|Hin]; [now right; left|].
      destruct (IH Hin) as [->|Hin']; [now left|now right; right].
Qed.

Lemma define_unique_keys :
  forall (k v : string) (o : t),
    NoDup (map fst o) -> NoDup (map fst (define k v o)).
Proof.
  intros k v o; induction o as [|[k' v'] o IH]; simpl; intros Hnd.
  - constructor; [intros []|constructor].
  - inversion Hnd as [|? ? Hnotin Hnd']; subst.
    destruct (String.eqb_spec k k') as [->|Hne]; simpl.
    + now constructor.
    + constructor; [|now apply IH].
      intros Hin; apply in_keys_define in Hin as [->|Hin]; [now apply Hne|].
      now apply Hnotin.
Qed.

Lemma get_In :
  forall (k v : string) (o : t), get k o = Some v -> In (k, v) o.
Proof.
  intros k v o; induction o as [|[k' v'] o IH]; simpl; [discriminate|].
  destruct (String.eqb_spec k k') as [->|Hne].
  - intros [= ->]; now left.
  - intros Hget; right; now apply IH.
Qed.

Lemma In_get :
  forall (k v : string) (o : t),
    NoDup (map fst o) -> In (k, v) o -> get k o = Some v.
Proof.
  intros k v o; induction o as [|[k' v'] o IH]; simpl; intros Hnd Hin; [easy|].
  inversion Hnd as [|? ? Hnotin Hnd']; subst.
  destruct Hin as [[= -> ->]|Hin].
  - now rewrite String.eqb_refl.
  - destruct (String.eqb_spec k k') as [->|Hne]; [|now apply IH].
    exfalso; apply Hnotin. now apply (in_map fst) in Hin.
Qed.

Lemma insert_index_perm :
  forall (i : N) (kv : string * string) (l : list (N * (string * string))),
    Permutation (insert_index i kv l) ((i, kv) :: l).
Proof.
  intros i kv l; induction l as [|[j kv'] l IH]; simpl; [reflexivity|].
  destruct (i <? j)%N; [reflexivity|].
  rewrite IH. apply perm_swap.
Qed.

Lemma entries_perm : forall o : t, Permutation (entries o) o.
Proof.
  unfold entries, named_entries.
  induction o as [|kv o IH]; simpl; [reflexivity|].
  destruct (array_index (fst kv)) as [i|].
  - rewrite insert_index_perm; simpl. now constructor.
  - rewrite <- Permutation_middle. now constructor.
Qed.

Lemma get_perm :
  forall (k : string) (o o' : t),
    NoDup (map fst o) -> Permutation o o' -> get k o = get k o'.
Proof.
  intros k o o' Hnd Hperm.
  assert (Hnd' : NoDup (map fst o'))
    by (eapply Permutation_NoDup; [apply Permutation_map; exact Hperm|exact Hnd]).
  destruct (get k o) as [v|] eqn:Ho.
  - symmetry; apply In_get; [exact Hnd'|].
    eapply Permutation_in; [exact Hperm|now apply get_In].
  - destruct (get k o') as [v'|] eqn:Ho'; [|reflexivity].
    apply get_In in Ho'.
    apply (Permutation_in _ (Permutation_sym Hperm)) in Ho'.
    apply (In_get _ _ _ Hnd) in Ho'. congruence.
Qed.

Lemma entries_unique_keys :
  forall o : t, NoDup (map fst o) -> NoDup (map fst (entries o)).
Proof.
  intros o Hnd.
  eapply Permutation_NoDup; [|exact Hnd].
  apply Permutation_map, Permutation_sym, entries_perm.
Qed.

Lemma get_entries :
  forall (k : string) (o : t),
    NoDup (map fst o) -> get k (entries o) = get k o.
Proof.
  intros k o Hnd; symmetry; apply get_perm; [exact Hnd|].
  apply Permutation_sym, entries_perm.
Qed.

Lemma in_entries :
  forall (kv : string * string) (o : t), In kv (entries o) <-> In kv o.
Proof.
  intros kv o; split; apply Permutation_in;
    [apply entries_perm|apply Permutation_sym, entries_perm].
Qed.

Lemma get_fold_define :
  forall (k : string) (l target : t),
    NoDup (map fst l) ->
    get k (fold_left (fun acc kv => define (fst kv) (snd kv) acc) l target)
    = match get k l with
      | Some v => Some v
      | None => get k target
      end.
Proof.
  intros k l; induction l as [|[k1 v1] l IH]; intros target Hnd; simpl in *.
  - reflexivity.
  - inversion Hnd as [|? ? Hnotin Hnd']; subst.
    rewrite (IH _ Hnd').
    destruct (String.eqb_spec k k1) as [->|Hne].
    + destruct (get k1 l) as [v|] eqn:Hget.
      * exfalso; apply Hnotin. apply get_In in Hget.
        now apply (in_map fst) in Hget.
      * apply get_define_same.
    + destruct (get k l); [reflexivity|now apply get_define_other].
Qed.

Lemma fold_define_unique_keys :
  forall l target : t,
    NoDup (map fst target) ->
    NoDup (map fst (fold_left (fun acc kv => define (fst kv) (snd kv) acc) l target)).
Proof.
  induction l as [|kv l IH]; intros target Hnd; simpl; [exact Hnd|].
  apply IH. now apply define_unique_keys.
Qed.

(** The spread: the source wins on an exactly equal key, every other key of
    the target is kept. *)
Lemma get_spread :
  forall (k : string) (target source : t),
    NoDup (map fst source) ->
    get k (spread target source)
    = match get k source with
      | Some v => Some v
      | None => get k target
      end.
Proof.
  intros k target source Hnd; unfold spread.
  rewrite get_fold_define by now apply entries_unique_keys.
  now rewrite get_entries.
Qed.

Lemma spread_unique_keys :
  forall target source : t,
    NoDup (map fst target) -> NoDup (map fst (spread target source)).
Proof.
  intros target source Hnd; unfold spread.
  now apply fold_define_unique_keys.
Qed.

Lemma assign_unique_keys :
  forall (k v : string) (o : t),
    NoDup (map fst o) -> NoDup (map fst (assign k v o)).
Proof.
  intros k v o Hnd; unfold assign.
  destruct (String.eqb k "__proto__"); [exact Hnd|now apply define_unique_keys].
Qed.

(** With unique keys, the entries under one name are the single pair that
    [get] finds. *)
Lemma filter_key_unique :
  forall (k v : string) (l : t),
    NoDup (map fst l) -> In (k, v) l ->
    filter (fun kv => String.eqb (fst kv) k) l = [(k, v)].
Proof.
  intros k v l; induction l as [|[k' v'] l IH]; simpl; intros Hnd Hin; [easy|].
  inversion Hnd as [|? ? Hnotin Hnd']; subst.
  destruct Hin as [[= -> ->]|Hin].
  - rewrite String.eqb_refl. f_equal.
    clear IH Hnd. induction l as [|[k1 v1] l IHl]; simpl; [reflexivity|].
    destruct (String.eqb_spec k1 k) as [->|Hne].
    + exfalso; apply Hnotin; now left.
    + apply IHl; [|now inversion Hnd'].
      intros Hin; apply Hnotin; now right.
  - destruct (String.eqb_spec k' k) as [->|Hne]; [|now apply IH].
    exfalso; apply Hnotin. now apply (in_map fst) in Hin.
Qed.

End JSObjectFacts.

(** ** Strings and slices *)

Lemma append_nil_r : forall s : string, s ++ "" = s.
Proof. induction s as [|c s IH]; simpl; [reflexivity|now rewrite IH]. Qed.

Lemma append_assoc :
  forall a b c : string, (a ++ b) ++ c = a ++ (b ++ c).
Proof. induction a as [|x a IH]; intros b c; simpl; [reflexivity|now rewrite IH]. Qed.

Lemma substring_split :
  forall (s : string) (n : nat),
    n <= String.length s ->
    substring 0 n s ++ substring n (String.length s - n) s = s.
Proof.
  induction s as [|c s IH]; intros n Hn; simpl in *.
  - now destruct n.
  - destruct n as [|n]; simpl.
    + f_equal. specialize (IH 0 (Nat.le_0_l _)).
      rewrite Nat.sub_0_r in IH.
      destruct s; simpl in *; [reflexivity|exact IH].
    + f_equal. apply IH. lia.
Qed.

Lemma substring_length :
  forall (s : string) (n m : nat),
    n + m <= String.length s -> String.length (substring n m s) = m.
Proof.
  induction s as [|c s IH]; intros n m Hle; simpl in *.
  - destruct n, m; simpl; lia.
  - destruct n as [|n]; [destruct m as [|m]|]; simpl.
    + reflexivity.
    + f_equal. apply IH. lia.
    + apply IH. lia.
Qed.

Lemma baseChunk_substring :
  forall body : string,
    baseChunk body = substring 0 (String.length body - 1) body.
Proof.
  intros body; unfold baseChunk, slice; cbv zeta.
  destruct (Z.ltb_spec 0 0); [lia|].
  destruct (Z.ltb_spec (Z.of_nat (String.length body) - 1) 0);
    f_equal; lia.
Qed.

Lemma endChunk_substring :
  forall body : string,
    endChunk body
    = substring (String.length body - 1)
        (String.length body - (String.length body - 1)) body.
Proof.
  intros body; unfold endChunk, slice; cbv zeta.
  destruct (Z.ltb_spec (Z.of_nat (String.length body)) 0); [lia|].
  destruct (Z.ltb_spec (Z.of_nat (String.length body) - 1) 0);
    f_equal; lia.
Qed.

(** The two slices of [sendBody] cut the body before its last byte. *)
Lemma body_chunks :
  forall body : string, baseChunk body ++ endChunk body = body.
Proof.
  intros body.
  rewrite baseChunk_substring, endChunk_substring.
  apply substring_split. lia.
Qed.

Lemma endChunk_length :
  forall body : string,
    body <> "" -> String.length (endChunk body) = 1.
Proof.
  intros body Hne.
  assert (0 < String.length body) by (destruct body; simpl; [congruence|lia]).
  rewrite endChunk_substring, substring_length; lia.
Qed.

(** ** Runs of one request *)

Section RequestFacts.

Variable Date_parse : string -> JSNum.
Variable HTTPParser : string -> ParserRun.

Lemma written_socket_call :
  forall (c : SocketCall) (w : World),
    written (socket_call c w)
    = (written w ++ match c with
                    | SocketWrite data => [data]
                    | _ => []
                    end)%list.
Proof.
  intros c w; unfold written, socket_call; simpl.
  rewrite flat_map_app; simpl. now rewrite app_nil_r.
Qed.

(** The state in which [request] leaves an established connection. *)
Lemma request_established :
  forall _options : RequestOptions.t,
    written (snd (request Date_parse _options Established))
    = immediate_writes _options
    /\ armed (fst (request Date_parse _options Established))
       = delayed_write Date_parse _options
    /\ promise (snd (request Date_parse _options Established)) = Pending
    /\ listening (snd (request Date_parse _options Established)) = true
    /\ responseData (snd (request Date_parse _options Established)) = "".
Proof.
  intros o.
  unfold request, connect, immediate_writes, delayed_write, before_last_unit,
    last_unit, headerBytes, effective_method, effective_path, effective_body,
    sendHeader, sendBody.
  destruct (isHasBodyRequest o);
    destruct (option_default false (RequestOptions.https o));
    destruct (RequestOptions.targetTime o) as [t|];
    try destruct (truthy (Some t));
    repeat split; reflexivity.
Qed.

Lemma step_listening :
  forall (rt : Runtime) (ev : Event),
    listening (snd (step HTTPParser rt ev)) = listening (snd rt).
Proof.
  intros [tm w] ev; destruct ev as [chunk|e|h now]; simpl.
  - destruct (listening w) eqn:Hl; simpl; now rewrite ?Hl.
  - destruct (listening w) eqn:Hl; simpl; now rewrite ?Hl.
  - destruct (find_interval h (armed tm)) as [[[d] t]|]; [|reflexivity].
    simpl. now destruct (js_ge now t).
Qed.

Lemma run_listening :
  forall (events : list Event) (rt : Runtime),
    listening (snd (run HTTPParser events rt)) = listening (snd rt).
Proof.
  unfold run; induction events as [|ev events IH]; intros rt; simpl;
    [reflexivity|].
  now rewrite IH, step_listening.
Qed.

(** A settled promise keeps its value. *)
Lemma step_settled :
  forall (rt : Runtime) (ev : Event),
    promise (snd rt) <> Pending ->
    promise (snd (step HTTPParser rt ev)) = promise (snd rt).
Proof.
  intros [tm w] ev Hset; destruct ev as [chunk|e|h now]; simpl in *.
  - destruct (listening w); simpl; [|reflexivity].
    now destruct (promise w).
  - destruct (listening w); simpl; [|reflexivity].
    now destruct (promise w).
  - destruct (find_interval h (armed tm)) as [[[d] t]|]; [|reflexivity].
    simpl. now destruct (js_ge now t).
Qed.

Lemma run_settled :
  forall (events : list Event) (rt : Runtime),
    promise (snd rt) <> Pending ->
    promise (snd (run HTTPParser events rt)) = promise (snd rt).
Proof.
  unfold run; induction events as [|ev events IH]; intros rt Hset; simpl;
    [reflexivity|].
  rewrite IH; rewrite step_settled; auto.
Qed.

(** Interval macrotasks only write to the socket. *)
Lemma step_interval_world :
  forall (rt : Runtime) (h : nat) (now : Z),
    promise (snd (step HTTPParser rt (IntervalFires h now))) = promise (snd rt)
    /\ responseData (snd (step HTTPParser rt (IntervalFires h now)))
       = responseData (snd rt).
Proof.
  intros [tm w] h now; simpl.
  destruct (find_interval h (armed tm)) as [[[d] t]|]; [|now split].
  simpl. destruct (js_ge now t); now split.
Qed.

Lemma run_interval_events :
  forall (ticks : list (nat * Z)) (rt : Runtime),
    promise (snd (run HTTPParser (interval_events ticks) rt)) = promise (snd rt)
    /\ responseData (snd (run HTTPParser (interval_events ticks) rt))
       = responseData (snd rt)
    /\ listening (snd (run HTTPParser (interval_events ticks) rt))
       = listening (snd rt).
Proof.
  unfold run, interval_events.
  induction ticks as [|[h now] ticks IH]; intros rt; simpl; [now repeat split|].
  destruct (IH (interval_check invoke h now rt)) as (Hp & Hd & Hl).
  destruct (step_interval_world rt h now) as (Hp' & Hd').
  pose proof (step_listening rt (IntervalFires h now)) as Hl'.
  simpl in Hp', Hd', Hl'.
  rewrite Hp, Hd, Hl, Hp', Hd', Hl'. now repeat split.
Qed.

(** With no interval armed, nothing more is written. *)
Lemma step_nothing_armed :
  forall (rt : Runtime) (ev : Event),
    armed (fst rt) = [] ->
    armed (fst (step HTTPParser rt ev)) = []
    /\ written (snd (step HTTPParser rt ev)) = written (snd rt).
Proof.
  intros [tm w] ev Harmed; destruct ev as [chunk|e|h now]; simpl in *.
  - destruct (listening w); simpl; [|now split].
    split; [exact Harmed|].
    unfold on_data. rewrite written_socket_call. apply app_nil_r.
  - destruct (listening w); simpl; now split.
  - rewrite Harmed; simpl. now split.
Qed.

Lemma run_nothing_armed :
  forall (events : list Event) (rt : Runtime),
    armed (fst rt) = [] ->
    armed (fst (run HTTPParser events rt)) = []
    /\ written (snd (run HTTPParser events rt)) = written (snd rt).
Proof.
  unfold run; induction events as [|ev events IH]; intros rt Harmed; simpl;
    [now split|].
  destruct (step_nothing_armed rt ev Harmed) as (Ha & Hw).
  destruct (IH _ Ha) as (Ha' & Hw'). split; congruence.
Qed.

(** With the one delayed write of a request armed, a step either leaves it
    armed and writes nothing, or performs it and clears the interval. *)
Lemma step_delayed_write :
  forall (rt : Runtime) (ev : Event) (data : string) (t : JSNum),
    armed (fst rt) = [(0, {| callback := WriteLater data; targetTimeNumber := t |})] ->
    (armed (fst (step HTTPParser rt ev)) = armed (fst rt)
     /\ written (snd (step HTTPParser rt ev)) = written (snd rt))
    \/ (armed (fst (step HTTPParser rt ev)) = []
        /\ written (snd (step HTTPParser rt ev)) = (written (snd rt) ++ [data])%list).
Proof.
  intros [tm w] ev data t Harmed; destruct ev as [chunk|e|h now]; simpl in *.
  - left. destruct (listening w); simpl; [|now split].
    split; [reflexivity|].
    unfold on_data. rewrite written_socket_call. apply app_nil_r.
  - left. destruct (listening w); simpl; now split.
  - rewrite Harmed; simpl.
    destruct (Nat.eqb_spec h 0) as [->|Hne]; simpl;
      [|left; split; [exact Harmed|reflexivity]].
    destruct (js_ge now t); simpl; [|left; split; [exact Harmed|reflexivity]].
    right; split.
    + rewrite Harmed; reflexivity.
    + apply (written_socket_call (SocketWrite data)).
Qed.

Lemma run_delayed_write :
  forall (events : list Event) (rt : Runtime) (data : string) (t : JSNum),
    armed (fst rt) = [(0, {| callback := WriteLater data; targetTimeNumber := t |})] ->
    (armed (fst (run HTTPParser events rt)) = armed (fst rt)
     /\ written (snd (run HTTPParser events rt)) = written (snd rt))
    \/ (armed (fst (run HTTPParser events rt)) = []
        /\ written (snd (run HTTPParser events rt)) = (written (snd rt) ++ [data])%list).
Proof.
  unfold run; induction events as [|ev events IH]; intros rt data t Harmed; simpl.
  - left; now split.
  - destruct (step_delayed_write rt ev data t Harmed) as [(Ha & Hw)|(Ha & Hw)].
    + rewrite Harmed in Ha.
      destruct (IH _ data t Ha) as [(Ha' & Hw')|(Ha' & Hw')].
      * left; split; congruence.
      * right; split; congruence.
    + right. destruct (run_nothing_armed events _ Ha) as (Ha' & Hw').
      unfold run in Ha', Hw'. split; congruence.
Qed.

(** The writes of a run of a request: the immediate ones, and after them
    the last unit once no write of it is pending. *)
Lemma run_request_written :
  forall (_options : RequestOptions.t) (events : list Event),
    let rt := run HTTPParser events (request Date_parse _options Established) in
    (armed (fst rt) = delayed_write Date_parse _options
     /\ written (snd rt) = immediate_writes _options)
    \/ (armed (fst rt) = []
        /\ written (snd rt)
           = (before_last_unit _options ++ [last_unit _options])%list).
Proof.
  intros o events rt; subst rt.
  destruct (request_established o) as (Hw & Ha & _).
  unfold delayed_write, immediate_writes in *.
  destruct (RequestOptions.targetTime o) as [t|].
  - destruct (truthy (Some t)).
    + destruct (run_delayed_write events _ _ _ Ha) as [(Ha' & Hw')|(Ha' & Hw')].
      * left; split; congruence.
      * right; split; [exact Ha'|]. rewrite Hw', Hw. now rewrite app_nil_r.
    + destruct (run_nothing_armed events _ Ha) as (Ha' & Hw').
      right; split; congruence.
  - change (truthy None) with false in *.
    destruct (run_nothing_armed events _ Ha) as (Ha' & Hw').
    right; split; congruence.
Qed.

End RequestFacts.

Lemma run_app :
  forall (HTTPParser : string -> ParserRun) (a b : list Event) (rt : Runtime),
    run HTTPParser (a ++ b) rt = run HTTPParser b (run HTTPParser a rt).
Proof. intros HTTPParser a b rt; unfold run; apply fold_left_app. Qed.

Lemma isHasBodyRequest_true :
  forall _options : RequestOptions.t,
    isHasBodyRequest _options = true <->
    effective_body _options <> ""
    /\ effective_method _options <> "GET"
    /\ effective_method _options <> "HEAD".
Proof.
  intros o; unfold isHasBodyRequest, effective_body, effective_method.
  rewrite !andb_true_iff, !negb_true_iff, !String.eqb_neq. tauto.
Qed.

Lemma isHasBodyRequest_false :
  forall _options : RequestOptions.t,
    effective_method _options = "GET" \/ effective_method _options = "HEAD" ->
    isHasBodyRequest _options = false.
Proof.
  intros o Hm.
  destruct (isHasBodyRequest o) eqn:Hb; [|reflexivity].
  apply isHasBodyRequest_true in Hb. tauto.
Qed.

Lemma defaultHeaders_unique_keys :
  forall host : string, NoDup (map fst (defaultHeaders host)).
Proof.
  intros host; simpl.
  repeat constructor; simpl; intuition discriminate.
Qed.

Lemma requestHeaders_unique_keys :
  forall _options : RequestOptions.t, NoDup (map fst (requestHeaders _options)).
Proof.
  intros o; unfold requestHeaders.
  pose proof (JSObjectFacts.spread_unique_keys
                (defaultHeaders (RequestOptions.host o))
                (option_default JSObject.empty (RequestOptions.headers o))
                (defaultHeaders_unique_keys _)) as Hnd.
  destruct (isHasBodyRequest o); [|exact Hnd].
  now apply JSObjectFacts.assign_unique_keys.
Qed.

(** A header is transmitted exactly when [requestHeaders] holds it. *)
Lemma transmitted_iff_get :
  forall (_options : RequestOptions.t) (k v : string),
    In (k, v) (JSObject.entries (requestHeaders _options))
    <-> JSObject.get k (requestHeaders _options) = Some v.
Proof.
  intros o k v. rewrite JSObjectFacts.in_entries. split.
  - apply JSObjectFacts.In_get, requestHeaders_unique_keys.
  - apply JSObjectFacts.get_In.
Qed.

Lemma get_requestHeaders_merge :
  forall (_options : RequestOptions.t) (k : string),
    unique_keys (caller_headers _options) ->
    k <> "Content-Length" \/ isHasBodyRequest _options = false ->
    JSObject.get k (requestHeaders _options)
    = match JSObject.get k (caller_headers _options) with
      | Some v => Some v
      | None => JSObject.get k (defaultHeaders (RequestOptions.host _options))
      end.
Proof.
  intros o k Hnd Hk; unfold requestHeaders, caller_headers in *.
  destruct (isHasBodyRequest o).
  - destruct Hk as [Hk|Hk]; [|discriminate].
    unfold JSObject.assign; simpl.
    rewrite JSObjectFacts.get_define_other by exact Hk.
    now apply JSObjectFacts.get_spread.
  - now apply JSObjectFacts.get_spread.
Qed.

Lemma concat_four :
  forall a b c d : string, String.concat "" [a; b; c; d] = a ++ b ++ c ++ d.
Proof. reflexivity. Qed.

Lemma concat_three :
  forall a b c : string, String.concat "" [a; b; c] = a ++ b ++ c.
Proof. reflexivity. Qed.

(** ** The transmission split *)

(** C1, as amended.  On an established connection [request] writes the
    request line and headers at once.  Without a body to send, a truthy
    target time leaves the blank line to the scheduler and a falsy or absent
    one has it written at once.  With a body to send, the blank line and all
    body bytes but the last are written at once, and the last byte is left
    to the scheduler exactly when the target time is truthy. *)
Theorem request_holds_back_the_last_unit :
  forall (Date_parse : string -> JSNum) (_options : RequestOptions.t),
    let head := headerBytes _options in
    let body := effective_body _options in
    let targetTime := RequestOptions.targetTime _options in
    let rt := request Date_parse _options Established in
    let scheduled data :=
      match targetTime with
      | Some t =>
          [(0, {| callback := WriteLater data;
                  targetTimeNumber := getTime Date_parse t |})]
      | None => []
      end in
    match isHasBodyRequest _options, truthy targetTime with
    | false, true =>
        written (snd rt) = [head] /\ armed (fst rt) = scheduled emptyRow
    | false, false =>
        written (snd rt) = [head; emptyRow] /\ armed (fst rt) = []
    | true, true =>
        written (snd rt) = [head; emptyRow; baseChunk body]
        /\ armed (fst rt) = scheduled (endChunk body)
        /\ baseChunk body ++ endChunk body = body
        /\ String.length (endChunk body) = 1
    | true, false =>
        written (snd rt) = [head; emptyRow; baseChunk body; endChunk body]
        /\ armed (fst rt) = []
        /\ baseChunk body ++ endChunk body = body
        /\ String.length (endChunk body) = 1
    end.
Proof.
  intros Date_parse o head body targetTime rt scheduled.
  destruct (request_established Date_parse o) as (Hw & Ha & _).
  fold rt in Hw, Ha.
  unfold immediate_writes, delayed_write, before_last_unit, last_unit in Hw, Ha.
  fold head body targetTime in Hw, Ha.
  destruct (isHasBodyRequest o) eqn:Hb.
  - apply isHasBodyRequest_true in Hb as (Hbody & _).
    pose proof (body_chunks body) as Hcut.
    pose proof (endChunk_length body Hbody) as Hlen.
    subst scheduled. destruct targetTime as [t|].
    + destruct (truthy (Some t)); repeat split; assumption.
    + repeat split; assumption.
  - subst scheduled. destruct targetTime as [t|].
    + destruct (truthy (Some t)); split; assumption.
    + split; assumption.
Qed.

(** C1, as stated, fails on a target time that is set but falsy: with the
    number 0, or with the empty string, the blank line of a request without
    a body is written at once and nothing is scheduled. *)
Lemma set_but_falsy_targetTime_is_not_delayed :
  let at_epoch := options "GET" [] "" (Some (TNumber (Num 0))) in
  let at_empty := options "GET" [] "" (Some (TString "")) in
  RequestOptions.targetTime at_epoch <> None
  /\ isHasBodyRequest at_epoch = false
  /\ written (snd (request sample_Date_parse at_epoch Established))
     = [headerBytes at_epoch; emptyRow]
  /\ armed (fst (request sample_Date_parse at_epoch Established)) = []
  /\ RequestOptions.targetTime at_empty <> None
  /\ isHasBodyRequest at_empty = false
  /\ written (snd (request sample_Date_parse at_empty Established))
     = [headerBytes at_empty; emptyRow]
  /\ armed (fst (request sample_Date_parse at_empty Established)) = [].
Proof.
  repeat split; try discriminate; reflexivity.
Qed.

(** ** Requests without a body *)

(** C6, as amended.  For the method GET or HEAD, [request] adds no
    Content-Length header of its own and writes no body byte, whatever the
    [body] field holds: the headers are the defaults merged with the
    caller's, a Content-Length header is transmitted exactly when the caller
    supplied one under that name, and the only writes are the request head
    and the blank line. *)
Theorem get_head_request_sends_no_body :
  forall (Date_parse : string -> JSNum) (HTTPParser : string -> ParserRun)
         (_options : RequestOptions.t) (events : list Event),
    effective_method _options = "GET" \/ effective_method _options = "HEAD" ->
    unique_keys (caller_headers _options) ->
    let rt := run HTTPParser events (request Date_parse _options Established) in
    requestHeaders _options
    = JSObject.spread (defaultHeaders (RequestOptions.host _options))
        (caller_headers _options)
    /\ JSObject.get "Content-Length" (requestHeaders _options)
       = JSObject.get "Content-Length" (caller_headers _options)
    /\ (written (snd rt) = [headerBytes _options]
        \/ written (snd rt) = [headerBytes _options; emptyRow]).
Proof.
  intros Date_parse HTTPParser o events Hm Hnd rt.
  pose proof (isHasBodyRequest_false o Hm) as Hb.
  split; [|split].
  - unfold requestHeaders, caller_headers. now rewrite Hb.
  - rewrite get_requestHeaders_merge by (auto || now right).
    now destruct (JSObject.get "Content-Length" (caller_headers o)).
  - pose proof (run_request_written Date_parse HTTPParser o events) as Hrun.
    fold rt in Hrun.
    unfold delayed_write, immediate_writes, before_last_unit, last_unit in Hrun.
    rewrite Hb in Hrun.
    destruct Hrun as [(_ & Hw)|(_ & Hw)]; rewrite Hw.
    + destruct (truthy (RequestOptions.targetTime o)); [now left|now right].
    + now right.
Qed.

Lemma get_head_request_witness :
  let o := options "HEAD" [("X-Probe", "1")] "ignored" (Some (TDate (Num 1000))) in
  let rt := run ModelParser.HTTPParser [IntervalFires 0 1000]
              (request sample_Date_parse o Established) in
  requestHeaders o
  = JSObject.spread (defaultHeaders (RequestOptions.host o)) (caller_headers o)
  /\ JSObject.get "Content-Length" (requestHeaders o)
     = JSObject.get "Content-Length" (caller_headers o)
  /\ (written (snd rt) = [headerBytes o]
      \/ written (snd rt) = [headerBytes o; emptyRow]).
Proof.
  apply (get_head_request_sends_no_body
           sample_Date_parse ModelParser.HTTPParser
           (options "HEAD" [("X-Probe", "1")] "ignored" (Some (TDate (Num 1000))))
           [IntervalFires 0 1000]).
  - now right.
  - repeat constructor; simpl; tauto.
Defined.

(** C6, as stated, fails when the caller supplies the header: a GET request
    whose [headers] hold Content-Length transmits that header line. *)
Lemma get_request_transmits_caller_content_length :
  let o := options "GET" [("Content-Length", "5")] "hello" None in
  effective_method o = "GET"
  /\ In ("Content-Length", "5") (JSObject.entries (requestHeaders o))
  /\ written (snd (request sample_Date_parse o Established))
     = ["GET / HTTP/1.1" ++ CRLF
        ++ "Host: localhost" ++ CRLF
        ++ "Connection: keep-alive" ++ CRLF
        ++ "accept: application/json" ++ CRLF
        ++ "Content-Length: 5";
        CRLF ++ CRLF].
Proof.
  split; [reflexivity|]. split; [|reflexivity].
  simpl. tauto.
Qed.

(** ** Header merging *)

(** C7, as amended.  The defaults are Host, Connection: keep-alive and
    accept: application/json, and names are compared exactly.  For a name
    other than Content-Length, the header line [k: v] is transmitted exactly
    when the caller supplied [k], in that spelling, with the value [v], or
    the caller supplied no header spelled [k] and [k] is a default with the
    value [v]. *)
Theorem caller_headers_override_defaults_of_equal_spelling :
  forall (_options : RequestOptions.t) (k v : string),
    unique_keys (caller_headers _options) ->
    k <> "Content-Length" ->
    (In (k, v) (JSObject.entries (requestHeaders _options))
     <-> match JSObject.get k (caller_headers _options) with
         | Some v' => v' = v
         | None =>
             JSObject.get k (defaultHeaders (RequestOptions.host _options))
             = Some v
         end).
Proof.
  intros o k v Hnd Hk.
  rewrite transmitted_iff_get.
  rewrite get_requestHeaders_merge by (auto || now left).
  destruct (JSObject.get k (caller_headers o)) as [v'|]; [|reflexivity].
  split; [now intros [= ->]|now intros ->].
Qed.

Lemma caller_headers_override_witness :
  let o := options "GET" [("Connection", "close"); ("host", "example.org")] "" None in
  In ("Connection", "close") (JSObject.entries (requestHeaders o))
  <-> match JSObject.get "Connection" (caller_headers o) with
      | Some v' => v' = "close"
      | None =>
          JSObject.get "Connection" (defaultHeaders (RequestOptions.host o))
          = Some "close"
      end.
Proof.
  apply (caller_headers_override_defaults_of_equal_spelling
           (options "GET" [("Connection", "close"); ("host", "example.org")] "" None)
           "Connection" "close").
  - repeat constructor; simpl; intuition discriminate.
  - discriminate.
Defined.

(** C7, as stated, fails: a caller's header [host] has the name of the
    default [Host] in another letter case and does not override it; both
    lines are transmitted. *)
Lemma caller_host_in_lower_case_does_not_override :
  let o := options "GET" [("host", "example.org")] "" None in
  same_name_ignoring_case "host" "Host"
  /\ JSObject.entries (requestHeaders o)
     = [("Host", "localhost"); ("Connection", "keep-alive");
        ("accept", "application/json"); ("host", "example.org")]
  /\ headerLines (requestHeaders o)
     = "Host: localhost" ++ CRLF ++ "Connection: keep-alive" ++ CRLF
       ++ "accept: application/json" ++ CRLF ++ "host: example.org".
Proof. repeat split. Qed.

(** ** Failures *)

(** C8, as amended.  When the connection attempt fails with an error, the
    promise of [request] is rejected with that error itself, nothing is
    written, and no later event changes that.  The attempt goes through [tls.connect] when [https] is set and
    through [net.createConnection] otherwise.  On an established socket, an
    ['error'] event that comes before any ['data'] event rejects the promise
    with that error itself, for good. *)
Theorem connection_and_socket_errors_reject :
  forall (Date_parse : string -> JSNum) (HTTPParser : string -> ParserRun)
         (_options : RequestOptions.t) (cause e : JSError)
         (events later : list Event) (ticks : list (nat * Z)),
    let host := RequestOptions.host _options in
    let port := RequestOptions.port _options in
    let failed := request Date_parse _options (Failed cause) in
    let established := request Date_parse _options Established in
    promise (snd failed) = Rejected cause
    /\ promise (snd (run HTTPParser events failed)) = Rejected cause
    /\ written (snd (run HTTPParser events failed)) = []
    /\ hd_error (socket (snd established))
       = Some (if option_default false (RequestOptions.https _options)
               then TlsConnect host port
               else NetCreateConnection port host)
    /\ hd_error (socket (snd failed)) = hd_error (socket (snd established))
    /\ promise (snd (run HTTPParser
                       (interval_events ticks ++ SocketError e :: later)
                       established))
       = Rejected e.
Proof.
  intros Date_parse HTTPParser o cause e events later ticks
         host port failed established.
  assert (Hfailed : failed
                    = (no_timers,
                       {| socket := fst (connect port host
                                           (option_default false (RequestOptions.https o))
                                           (Failed cause));
                          listening := false;
                          promise := Rejected cause;
                          responseData := "" |})).
  { subst failed host port; unfold request, connect.
    now destruct (option_default false (RequestOptions.https o)). }
  split; [now rewrite Hfailed|]. split; [|split; [|split; [|split]]].
  - rewrite run_settled; now rewrite Hfailed.
  - destruct (run_nothing_armed HTTPParser events failed) as (_ & Hw).
    + now rewrite Hfailed.
    + rewrite Hw, Hfailed; unfold connect, written; simpl.
      now destruct (option_default false (RequestOptions.https o)).
  - subst established host port; unfold request, connect, sendHeader, sendBody.
    destruct (option_default false (RequestOptions.https o));
      destruct (isHasBodyRequest o);
      destruct (RequestOptions.targetTime o) as [t|];
      try destruct (truthy (Some t)); reflexivity.
  - subst established host port; rewrite Hfailed.
    unfold request, connect, sendHeader, sendBody.
    destruct (option_default false (RequestOptions.https o));
      destruct (isHasBodyRequest o);
      destruct (RequestOptions.targetTime o) as [t|];
      try destruct (truthy (Some t)); reflexivity.
  - destruct (request_established Date_parse o) as (_ & _ & Hp & Hl & _).
    fold established in Hp, Hl.
    rewrite run_app.
    destruct (run_interval_events HTTPParser ticks established) as (Hp' & _ & Hl').
    rewrite Hp in Hp'; rewrite Hl in Hl'.
    change (run HTTPParser (SocketError e :: later)
              (run HTTPParser (interval_events ticks) established))
      with (run HTTPParser later
              (step HTTPParser
                 (run HTTPParser (interval_events ticks) established)
                 (SocketError e))).
    assert (Hstep : promise (snd (step HTTPParser
                                    (run HTTPParser (interval_events ticks) established)
                                    (SocketError e)))
                    = Rejected e).
    { destruct (run HTTPParser (interval_events ticks) established) as [tm w].
      simpl in *. rewrite Hl'; simpl. now rewrite Hp'. }
    rewrite run_settled; rewrite Hstep; [reflexivity|discriminate].
Qed.

(** C8, as stated, fails.  An ['error'] event that comes after a first
    chunk, before the response is complete, rejects nothing: the promise
    stays resolved with the parse of that chunk.  And the rejections carry
    no kind: a failed connection attempt and an error on the established
    socket reject with the same value for the same error. *)
Lemma socket_error_after_a_partial_chunk_does_not_reject :
  promise (snd (run ModelParser.HTTPParser
                  [Data sample_response_head; SocketError "ECONNRESET"]
                  (request sample_Date_parse index_options Established)))
  = Resolved {| HttpResponse.statusCode := 200;
                HttpResponse.statusText := "OK";
                HttpResponse.headers := [("content-length", "2")];
                HttpResponse.body := "" |}
  /\ promise (snd (request sample_Date_parse index_options (Failed "ECONNRESET")))
     = Rejected "ECONNRESET"
  /\ promise (snd (run ModelParser.HTTPParser [SocketError "ECONNRESET"]
                     (request sample_Date_parse index_options Established)))
     = Rejected "ECONNRESET".
Proof. repeat split; vm_compute; reflexivity. Qed.

(** ** The first ['data'] event *)

(** C9.  Whatever interval checks come first, the promise is pending until
    the first ['data'] event; that event resolves it with the parse of the
    first chunk alone and calls [socket.end()]; no later event changes the
    response the promise holds. *)
Theorem first_data_event_resolves_the_promise :
  forall (Date_parse : string -> JSNum) (HTTPParser : string -> ParserRun)
         (_options : RequestOptions.t) (ticks : list (nat * Z))
         (chunk : string) (later : list Event),
    let rt := request Date_parse _options Established in
    let first := run HTTPParser (interval_events ticks ++ [Data chunk]) rt in
    promise (snd (run HTTPParser (interval_events ticks) rt)) = Pending
    /\ promise (snd first) = Resolved (parseResponse HTTPParser chunk)
    /\ (exists calls, socket (snd first) = (calls ++ [SocketEnd])%list)
    /\ promise (snd (run HTTPParser later first))
       = Resolved (parseResponse HTTPParser chunk).
Proof.
  intros Date_parse HTTPParser o ticks chunk later rt first.
  destruct (request_established Date_parse o) as (_ & _ & Hp & Hl & Hd).
  fold rt in Hp, Hl, Hd.
  destruct (run_interval_events HTTPParser ticks rt) as (Hp' & Hd' & Hl').
  rewrite Hp in Hp'; rewrite Hd in Hd'; rewrite Hl in Hl'.
  assert (Hfirst : first
                   = step HTTPParser (run HTTPParser (interval_events ticks) rt)
                       (Data chunk))
    by (subst first; now rewrite run_app).
  assert (Hres : promise (snd first) = Resolved (parseResponse HTTPParser chunk)).
  { rewrite Hfirst.
    destruct (run HTTPParser (interval_events ticks) rt) as [tm w].
    simpl in *. rewrite Hl'; simpl. now rewrite Hp', Hd'. }
  split; [exact Hp'|]. split; [exact Hres|]. split.
  - rewrite Hfirst.
    destruct (run HTTPParser (interval_events ticks) rt) as [tm w].
    simpl in *. rewrite Hl'; simpl. now exists (socket w).
  - rewrite run_settled; rewrite Hres; [reflexivity|discriminate].
Qed.

(** C3.  For every parser, a response delivered in the chunks
    [first :: rest] resolves the promise with the parse of [first] alone.
    So [sample_response], delivered in two chunks that cut its body,
    resolves with an empty body, and delivered in one chunk it resolves
    with the body [OK]. *)
Theorem split_response_resolves_with_the_first_chunk :
  forall (Date_parse : string -> JSNum) (HTTPParser : string -> ParserRun)
         (_options : RequestOptions.t) (first : string) (rest : list string),
    promise (snd (run HTTPParser (map Data (first :: rest))
                    (request Date_parse _options Established)))
    = Resolved (parseResponse HTTPParser first)
    /\ sample_response_head ++ "K" = sample_response
    /\ promise (snd (run ModelParser.HTTPParser
                       [Data sample_response_head; Data "K"]
                       (request sample_Date_parse index_options Established)))
       = Resolved {| HttpResponse.statusCode := 200;
                     HttpResponse.statusText := "OK";
                     HttpResponse.headers := [("content-length", "2")];
                     HttpResponse.body := "" |}
    /\ promise (snd (run ModelParser.HTTPParser
                       [Data sample_response]
                       (request sample_Date_parse index_options Established)))
       = Resolved {| HttpResponse.statusCode := 200;
                     HttpResponse.statusText := "OK";
                     HttpResponse.headers := [("content-length", "2")];
                     HttpResponse.body := "OK" |}.
Proof.
  intros Date_parse HTTPParser o first rest. split.
  - destruct (request_established Date_parse o) as (_ & _ & Hp & Hl & Hd).
    change (map Data (first :: rest)) with (Data first :: map Data rest).
    change (run HTTPParser (Data first :: map Data rest)
              (request Date_parse o Established))
      with (run HTTPParser (map Data rest)
              (step HTTPParser (request Date_parse o Established) (Data first))).
    assert (Hres : promise (snd (step HTTPParser
                                   (request Date_parse o Established)
                                   (Data first)))
                   = Resolved (parseResponse HTTPParser first)).
    { destruct (request Date_parse o Established) as [tm w].
      simpl in *. rewrite Hl; simpl. now rewrite Hp, Hd. }
    rewrite run_settled; rewrite Hres; [reflexivity|discriminate].
  - repeat split; vm_compute; reflexivity.
Qed.

(** C4.  A ['data'] event always resolves the pending promise, whatever the
    parser reports; on the bytes [NOT HTTP CRLF CRLF] the [catch] block of
    [parseResponse] runs and the promise is resolved with the zero-valued
    response. *)
Theorem malformed_status_line_resolves_with_zero_response :
  forall (Date_parse : string -> JSNum) (HTTPParser : string -> ParserRun)
         (_options : RequestOptions.t) (chunk : string),
    promise (snd (run HTTPParser [Data chunk]
                    (request Date_parse _options Established)))
    = Resolved (parseResponse HTTPParser chunk)
    /\ parseResponse_caught ModelParser.HTTPParser malformed_response
       = (zero_response, true)
    /\ promise (snd (run ModelParser.HTTPParser [Data malformed_response]
                       (request sample_Date_parse index_options Established)))
       = Resolved zero_response.
Proof.
  intros Date_parse HTTPParser o chunk. split; [|split].
  - destruct (request_established Date_parse o) as (_ & _ & Hp & Hl & Hd).
    destruct (request Date_parse o Established) as [tm w].
    simpl in *. rewrite Hl; simpl. now rewrite Hp, Hd.
  - vm_compute; reflexivity.
  - vm_compute; reflexivity.
Qed.

(** ** The model parser on the responses of the specification *)

Example parse_sample_response :
  parseResponse_caught ModelParser.HTTPParser sample_response
  = ({| HttpResponse.statusCode := 200;
        HttpResponse.statusText := "OK";
        HttpResponse.headers := [("content-length", "2")];
        HttpResponse.body := "OK" |}, false).
Proof. vm_compute; reflexivity. Qed.

Example parse_chunked_response :
  parseResponse_caught ModelParser.HTTPParser chunked_response
  = ({| HttpResponse.statusCode := 200;
        HttpResponse.statusText := "OK";
        HttpResponse.headers := [("transfer-encoding", "chunked")];
        HttpResponse.body := "abcdefghijklmnopqrstuvwxyz" |}, false).
Proof. vm_compute; reflexivity. Qed.

Example parse_until_close :
  parseResponse_caught ModelParser.HTTPParser
    ("HTTP/1.0 404 Not Found" ++ CRLF ++ "X-Trace:  a b " ++ CRLF ++ CRLF ++ "gone")
  = ({| HttpResponse.statusCode := 404;
        HttpResponse.statusText := "Not Found";
        HttpResponse.headers := [("x-trace", "a b")];
        HttpResponse.body := "gone" |}, false).
Proof. vm_compute; reflexivity. Qed.

Example entries_put_array_indices_first :
  JSObject.entries [("b", "1"); ("10", "2"); ("a", "3"); ("2", "4"); ("01", "5")]
  = [("2", "4"); ("10", "2"); ("b", "1"); ("a", "3"); ("01", "5")].
Proof. reflexivity. Qed.

Example index_request_holds_back_the_blank_line :
  written (snd (request sample_Date_parse index_options Established))
  = ["GET / HTTP/1.1" ++ CRLF ++ "Host: localhost" ++ CRLF
     ++ "Connection: keep-alive" ++ CRLF ++ "accept: application/json"]
  /\ written
       (snd (run ModelParser.HTTPParser
               [IntervalFires 0 1764781419999; IntervalFires 0 1764781420000]
               (request sample_Date_parse index_options Established)))
     = ["GET / HTTP/1.1" ++ CRLF ++ "Host: localhost" ++ CRLF
        ++ "Connection: keep-alive" ++ CRLF ++ "accept: application/json";
        CRLF ++ CRLF].
Proof. split; vm_compute; reflexivity. Qed.

(** ** Further properties of the scheduler *)

Lemma find_interval_app :
  forall (C : Type) (l1 l2 : list (nat * Interval C)) (h : nat),
    find_interval h (l1 ++ l2)
    = match find_interval h l1 with
      | Some iv => Some iv
      | None => find_interval h l2
      end.
Proof.
  intros C l1 l2 h; induction l1 as [|[h' iv] l1 IH]; simpl; [reflexivity|].
  now destruct (Nat.eqb h h').
Qed.

Lemma find_interval_above :
  forall (C : Type) (l : list (nat * Interval C)) (h : nat),
    Forall (fun p => fst p < h) l -> find_interval h l = None.
Proof.
  intros C l h Hlt; induction Hlt as [|[h' iv] l Hh _ IH]; simpl;
    [reflexivity|].
  simpl in Hh. destruct (Nat.eqb_spec h h'); [lia|exact IH].
Qed.

Lemma find_interval_other_cleared :
  forall (C : Type) (l : list (nat * Interval C)) (h h' : nat),
    h <> h' ->
    find_interval h (filter (fun p => negb (Nat.eqb (fst p) h')) l)
    = find_interval h l.
Proof.
  intros C l h h' Hne; induction l as [|[h1 iv] l IH]; simpl; [reflexivity|].
  destruct (Nat.eqb_spec h1 h') as [->|Hne1]; simpl.
  - destruct (Nat.eqb_spec h h'); [contradiction|exact IH].
  - now rewrite IH.
Qed.

(** X1.  A number beyond 8.64e15 in absolute value is no time value: the
    interval armed for it stays armed and no check invokes the callback. *)
Theorem doOnTargetTime_number_out_of_range_never_fires :
  forall (Date_parse : string -> JSNum) (C W : Type)
         (invoke : C -> W -> Completion W)
         (cb : C) (z : Z) (tm : Timers C) (w : W) (nows : list Z),
    timers_wf tm ->
    (8640000000000000 < Z.abs z)%Z ->
    let h := fst (doOnTargetTime Date_parse cb (TNumber (Num z)) tm) in
    let tm' := snd (doOnTargetTime Date_parse cb (TNumber (Num z)) tm) in
    interval_checks invoke h nows (tm', w) = (tm', w)
    /\ is_armed h tm' = true.
Proof.
  intros Date_parse C W invoke cb z tm w nows Hwf Hbig h tm'.
  pose proof (doOnTargetTime_arms Date_parse cb (TNumber (Num z)) tm Hwf)
    as Hfind.
  fold h tm' in Hfind.
  assert (HNaN : getTime Date_parse (TNumber (Num z)) = NaN).
  { simpl. destruct (Z.leb_spec (Z.abs z) 8640000000000000); [lia|reflexivity]. }
  split.
  - eapply interval_checks_early; [exact Hfind|].
    cbn [targetTimeNumber]. rewrite HNaN.
    apply Forall_forall; intros; apply js_ge_NaN.
  - unfold is_armed. now rewrite Hfind.
Qed.

Lemma doOnTargetTime_number_out_of_range_witness :
  let h := fst (doOnTargetTime sample_Date_parse tt
                  (TNumber (Num 1764781420000000000)) no_timers) in
  let tm' := snd (doOnTargetTime sample_Date_parse tt
                    (TNumber (Num 1764781420000000000)) no_timers) in
  interval_checks count_invocation h
    [1764781420000; 1764781420000000000; 9000000000000000000]%Z (tm', 0)
  = (tm', 0)
  /\ is_armed h tm' = true.
Proof.
  apply (doOnTargetTime_number_out_of_range_never_fires
           sample_Date_parse unit nat count_invocation tt
           1764781420000000000%Z no_timers 0
           [1764781420000; 1764781420000000000; 9000000000000000000]%Z).
  - constructor.
  - reflexivity.
Defined.

(** X2.  Two intervals armed one after the other have different handles
    and do not disturb each other: when both are due and their callbacks
    return, the check of the first invokes its callback only and leaves the
    second armed, and the check of the second then invokes the second
    callback and leaves nothing of the two armed. *)
Theorem two_intervals_fire_independently :
  forall (Date_parse : string -> JSNum) (C W : Type)
         (invoke : C -> W -> Completion W)
         (cb1 cb2 : C) (t1 t2 : Time) (tm : Timers C) (w w1 w2 : W)
         (now1 now2 : Z),
    timers_wf tm ->
    js_ge now1 (getTime Date_parse t1) = true ->
    js_ge now2 (getTime Date_parse t2) = true ->
    invoke cb1 w = Returned w1 ->
    invoke cb2 w1 = Returned w2 ->
    let h1 := fst (doOnTargetTime Date_parse cb1 t1 tm) in
    let tm1 := snd (doOnTargetTime Date_parse cb1 t1 tm) in
    let h2 := fst (doOnTargetTime Date_parse cb2 t2 tm1) in
    let tm2 := snd (doOnTargetTime Date_parse cb2 t2 tm1) in
    h1 <> h2
    /\ is_armed h1 tm2 = true
    /\ is_armed h2 tm2 = true
    /\ interval_check invoke h1 now1 (tm2, w) = (clearInterval h1 tm2, w1)
    /\ is_armed h2 (clearInterval h1 tm2) = true
    /\ interval_check invoke h2 now2 (clearInterval h1 tm2, w1)
       = (clearInterval h2 (clearInterval h1 tm2), w2)
    /\ is_armed h1 (clearInterval h2 (clearInterval h1 tm2)) = false
    /\ is_armed h2 (clearInterval h2 (clearInterval h1 tm2)) = false.
Proof.
  intros Date_parse C W invoke cb1 cb2 t1 t2 tm w w1 w2 now1 now2
         Hwf Hdue1 Hdue2 Hret1 Hret2 h1 tm1 h2 tm2.
  set (iv1 := {| callback := cb1; targetTimeNumber := getTime Date_parse t1 |}).
  set (iv2 := {| callback := cb2; targetTimeNumber := getTime Date_parse t2 |}).
  assert (Hh1 : h1 = next_handle tm) by reflexivity.
  assert (Hh2 : h2 = S (next_handle tm)) by reflexivity.
  assert (Harmed : armed tm2 = ((armed tm ++ [(h1, iv1)]) ++ [(h2, iv2)])%list)
    by reflexivity.
  assert (Hne : h1 <> h2) by lia.
  assert (Hf1 : find_interval h1 (armed tm2) = Some iv1).
  { rewrite Harmed, find_interval_app, Hh1.
    now rewrite (find_interval_fresh (armed tm) (next_handle tm) iv1 Hwf). }
  assert (Hf2 : find_interval h2 (armed tm2) = Some iv2).
  { rewrite Harmed. apply find_interval_fresh.
    apply Forall_app; split.
    - eapply Forall_impl; [|exact Hwf]. intros p Hp; simpl in *; lia.
    - repeat constructor; simpl; lia. }
  assert (Hf2' : find_interval h2 (armed (clearInterval h1 tm2)) = Some iv2).
  { unfold clearInterval; cbn [armed].
    rewrite find_interval_other_cleared by (intros E; apply Hne; now rewrite E).
    exact Hf2. }
  split; [exact Hne|]. split; [unfold is_armed; now rewrite Hf1|].
  split; [unfold is_armed; now rewrite Hf2|]. split.
  { exact (interval_check_due invoke h1 now1 tm2 w w1 iv1 Hf1 Hdue1 Hret1). }
  split; [unfold is_armed; now rewrite Hf2'|]. split.
  { exact (interval_check_due invoke h2 now2 (clearInterval h1 tm2)
             w1 w2 iv2 Hf2' Hdue2 Hret2). }
  split.
  - unfold is_armed, clearInterval; cbn [armed].
    rewrite find_interval_other_cleared by exact Hne.
    now rewrite find_interval_cleared.
  - unfold is_armed.
    unfold clearInterval at 1; cbn [armed].
    now rewrite find_interval_cleared.
Qed.

Lemma two_intervals_fire_independently_witness :
  let t := TString "2025/12/3 17:03:40" in
  let h1 := fst (doOnTargetTime sample_Date_parse tt t no_timers) in
  let tm1 := snd (doOnTargetTime sample_Date_parse tt t no_timers) in
  let h2 := fst (doOnTargetTime sample_Date_parse tt t tm1) in
  let tm2 := snd (doOnTargetTime sample_Date_parse tt t tm1) in
  h1 <> h2
  /\ is_armed h1 tm2 = true
  /\ is_armed h2 tm2 = true
  /\ interval_check count_invocation h1 1764781420000 (tm2, 0)
     = (clearInterval h1 tm2, 1)
  /\ is_armed h2 (clearInterval h1 tm2) = true
  /\ interval_check count_invocation h2 1764781420001 (clearInterval h1 tm2, 1)
     = (clearInterval h2 (clearInterval h1 tm2), 2)
  /\ is_armed h1 (clearInterval h2 (clearInterval h1 tm2)) = false
  /\ is_armed h2 (clearInterval h2 (clearInterval h1 tm2)) = false.
Proof.
  apply (two_intervals_fire_independently
           sample_Date_parse unit nat count_invocation tt tt
           (TString "2025/12/3 17:03:40") (TString "2025/12/3 17:03:40")
           no_timers 0 1 2 1764781420000%Z 1764781420001%Z).
  - constructor.
  - reflexivity.
  - reflexivity.
  - reflexivity.
  - reflexivity.
Defined.

(** ** Further properties of the runs of a request *)

Lemma step_release :
  forall (HTTPParser : string -> ParserRun) (rt : Runtime) (ev : Event)
         (data : string) (T : JSNum),
    armed (fst rt) = [(0, {| callback := WriteLater data; targetTimeNumber := T |})] ->
    armed (fst (step HTTPParser rt ev))
    = (if releases T ev then [] else armed (fst rt))
    /\ written (snd (step HTTPParser rt ev))
       = (written (snd rt) ++ (if releases T ev then [data] else []))%list.
Proof.
  intros HTTPParser [tm w] ev data T Harmed.
  destruct ev as [chunk|e|h now]; cbn [releases].
  - simpl in *. destruct (listening w); simpl.
    + split; [reflexivity|].
      unfold on_data. rewrite written_socket_call. reflexivity.
    + split; [reflexivity|now rewrite app_nil_r].
  - simpl in *. destruct (listening w); simpl;
      (split; [reflexivity|now rewrite app_nil_r]).
  - simpl in Harmed. unfold step, interval_check. rewrite Harmed.
    destruct h as [|h]; simpl.
    + destruct (js_ge now T); simpl.
      * rewrite Harmed; simpl. split; [reflexivity|].
        apply (written_socket_call (SocketWrite data)).
      * split; [reflexivity|now rewrite app_nil_r].
    + split; [reflexivity|now rewrite app_nil_r].
Qed.

Lemma run_release :
  forall (HTTPParser : string -> ParserRun) (events : list Event) (rt : Runtime)
         (data : string) (T : JSNum),
    armed (fst rt) = [(0, {| callback := WriteLater data; targetTimeNumber := T |})] ->
    armed (fst (run HTTPParser events rt))
    = (if existsb (releases T) events then [] else armed (fst rt))
    /\ written (snd (run HTTPParser events rt))
       = (written (snd rt)
          ++ (if existsb (releases T) events then [data] else []))%list.
Proof.
  intros HTTPParser events; induction events as [|ev events IH];
    intros rt data T Harmed.
  - simpl. split; [reflexivity|now rewrite app_nil_r].
  - change (run HTTPParser (ev :: events) rt)
      with (run HTTPParser events (step HTTPParser rt ev)).
    destruct (step_release HTTPParser rt ev data T Harmed) as (Ha & Hw).
    cbn [existsb]. destruct (releases T ev); cbn [orb].
    + destruct (run_nothing_armed HTTPParser events _ Ha) as (Ha' & Hw').
      split; congruence.
    + rewrite Harmed in Ha.
      destruct (IH _ data T Ha) as (Ha' & Hw').
      rewrite Ha', Hw', Ha, Hw, Harmed, app_nil_r. now split.
Qed.

Lemma releases_NaN : forall events : list Event, existsb (releases NaN) events = false.
Proof.
  induction events as [|ev events IH]; simpl; [reflexivity|].
  rewrite IH. destruct ev as [chunk|e|[|h] now]; reflexivity.
Qed.

(** X3.  With a truthy target time, the held-back unit of a request is
    written by the first check of the request's interval that reads a clock
    at or past the target, and by nothing else: after any run the writes are
    the immediate ones, followed by the last unit exactly when such a check
    is among the events, and the interval is armed exactly until then. *)
Theorem last_unit_is_released_by_a_due_check_only :
  forall (Date_parse : string -> JSNum) (HTTPParser : string -> ParserRun)
         (_options : RequestOptions.t) (t : Time) (events : list Event),
    RequestOptions.targetTime _options = Some t ->
    truthy (Some t) = true ->
    let rt := run HTTPParser events (request Date_parse _options Established) in
    let released := existsb (releases (getTime Date_parse t)) events in
    written (snd rt)
    = (before_last_unit _options
       ++ (if released then [last_unit _options] else []))%list
    /\ armed (fst rt)
       = (if released
          then []
          else [(0, {| callback := WriteLater (last_unit _options);
                       targetTimeNumber := getTime Date_parse t |})]).
Proof.
  intros Date_parse HTTPParser o t events Ht Htruthy rt released.
  destruct (request_established Date_parse o) as (Hw & Ha & _).
  unfold immediate_writes, delayed_write in Hw, Ha.
  rewrite Ht, Htruthy in Hw, Ha. rewrite app_nil_r in Hw.
  destruct (run_release HTTPParser events _ _ _ Ha) as (Ha' & Hw').
  fold rt released in Ha', Hw'.
  rewrite Hw', Ha', Hw, Ha. now split.
Qed.

Lemma last_unit_release_witness :
  let o := options "POST" [] "ab" (Some (TString "2025/12/3 17:03:40")) in
  let events := [IntervalFires 0 1764781419999; Data sample_response;
                 IntervalFires 1 1764781420000; SocketError "ECONNRESET";
                 IntervalFires 0 1764781420001] in
  let rt := run ModelParser.HTTPParser events
              (request sample_Date_parse o Established) in
  let released :=
    existsb (releases (getTime sample_Date_parse (TString "2025/12/3 17:03:40")))
      events in
  written (snd rt)
  = (before_last_unit o ++ (if released then [last_unit o] else []))%list
  /\ armed (fst rt)
     = (if released
        then []
        else [(0, {| callback := WriteLater (last_unit o);
                     targetTimeNumber :=
                       getTime sample_Date_parse (TString "2025/12/3 17:03:40") |})]).
Proof.
  apply (last_unit_is_released_by_a_due_check_only
           sample_Date_parse ModelParser.HTTPParser
           (options "POST" [] "ab" (Some (TString "2025/12/3 17:03:40")))
           (TString "2025/12/3 17:03:40")
           [IntervalFires 0 1764781419999; Data sample_response;
            IntervalFires 1 1764781420000; SocketError "ECONNRESET";
            IntervalFires 0 1764781420001]);
    reflexivity.
Defined.

(** X4.  A truthy target time that is no date, such as an unparsable
    string, leaves the request unfinished for ever: whatever events follow,
    the last unit is never written and the interval stays armed. *)
Theorem request_with_invalid_date_never_completes :
  forall (Date_parse : string -> JSNum) (HTTPParser : string -> ParserRun)
         (_options : RequestOptions.t) (t : Time) (events : list Event),
    RequestOptions.targetTime _options = Some t ->
    truthy (Some t) = true ->
    getTime Date_parse t = NaN ->
    let rt := run HTTPParser events (request Date_parse _options Established) in
    written (snd rt) = before_last_unit _options
    /\ armed (fst rt)
       = [(0, {| callback := WriteLater (last_unit _options);
                 targetTimeNumber := NaN |})].
Proof.
  intros Date_parse HTTPParser o t events Ht Htruthy HNaN rt.
  destruct (request_established Date_parse o) as (Hw & Ha & _).
  unfold immediate_writes, delayed_write in Hw, Ha.
  rewrite Ht, Htruthy in Hw, Ha. rewrite app_nil_r in Hw. rewrite HNaN in Ha.
  destruct (run_release HTTPParser events _ _ _ Ha) as (Ha' & Hw').
  fold rt in Ha', Hw'.
  rewrite releases_NaN in Ha', Hw'.
  rewrite Hw', Ha', Hw, Ha, app_nil_r. now split.
Qed.

Lemma request_with_invalid_date_witness :
  let o := options "GET" [] "" (Some (TString "next tuesday")) in
  let rt := run ModelParser.HTTPParser
              [IntervalFires 0 0; IntervalFires 0 9000000000000000;
               Data sample_response]
              (request sample_Date_parse o Established) in
  written (snd rt) = before_last_unit o
  /\ armed (fst rt)
     = [(0, {| callback := WriteLater (last_unit o); targetTimeNumber := NaN |})].
Proof.
  apply (request_with_invalid_date_never_completes
           sample_Date_parse ModelParser.HTTPParser
           (options "GET" [] "" (Some (TString "next tuesday")))
           (TString "next tuesday")
           [IntervalFires 0 0; IntervalFires 0 9000000000000000;
            Data sample_response]);
    reflexivity.
Defined.

(** ** Requests with a body *)

Lemma defaults_hold_no_length_header :
  forall host k : string,
    same_name_ignoring_case k "Content-Length" ->
    JSObject.get k (defaultHeaders host) = None.
Proof.
  intros host k Hsame; unfold same_name_ignoring_case in Hsame; simpl.
  destruct (String.eqb_spec k "Host") as [->|_]; [discriminate Hsame|].
  destruct (String.eqb_spec k "Connection") as [->|_]; [discriminate Hsame|].
  destruct (String.eqb_spec k "accept") as [->|_]; [discriminate Hsame|].
  reflexivity.
Qed.

(** C5, as amended.  For a method other than GET and HEAD and a non-empty
    body: among the transmitted headers named Content-Length up to letter
    case, the one spelled Content-Length carries the byte length of the body
    in decimal and occurs once, and the others are the caller's headers of
    such a name, with the caller's values.  The data passed to
    [socket.write] are the request line and header lines, the blank line and
    the body without its last byte, and after them the last byte of the
    body: at once when the target time is absent or falsy, and otherwise as
    soon as a check of the request's interval has read a clock at or past
    the target. *)
Theorem body_request_writes_head_terminator_body :
  forall (Date_parse : string -> JSNum) (HTTPParser : string -> ParserRun)
         (_options : RequestOptions.t) (events : list Event) (k v : string),
    effective_method _options <> "GET" ->
    effective_method _options <> "HEAD" ->
    effective_body _options <> "" ->
    unique_keys (caller_headers _options) ->
    same_name_ignoring_case k "Content-Length" ->
    let body := effective_body _options in
    let n := toString (String.length body) in
    let rt := run HTTPParser events (request Date_parse _options Established) in
    let complete :=
      match RequestOptions.targetTime _options with
      | Some t =>
          if truthy (Some t)
          then existsb (releases (getTime Date_parse t)) events
          else true
      | None => true
      end in
    (In (k, v) (JSObject.entries (requestHeaders _options))
     <-> (k = "Content-Length" /\ v = n)
         \/ (k <> "Content-Length"
             /\ JSObject.get k (caller_headers _options) = Some v))
    /\ filter (fun kv => String.eqb (fst kv) "Content-Length")
         (JSObject.entries (requestHeaders _options))
       = [("Content-Length", n)]
    /\ headerBytes _options
       = (effective_method _options ++ " " ++ effective_path _options
          ++ " HTTP/1.1" ++ CRLF)
         ++ String.concat CRLF
              (map (fun kv => fst kv ++ ": " ++ snd kv)
                 (JSObject.entries (requestHeaders _options)))
    /\ written (snd rt)
       = ([headerBytes _options; (CRLF ++ CRLF)%string; baseChunk body]
          ++ (if complete then [endChunk body] else []))%list
    /\ written_bytes (snd rt)
       = headerBytes _options ++ (CRLF ++ CRLF)
         ++ (if complete then body else baseChunk body)
    /\ baseChunk body ++ endChunk body = body
    /\ String.length (endChunk body) = 1.
Proof.
  intros Date_parse HTTPParser o events k v Hget Hhead Hbody Hnd Hsame
         body n rt complete.
  assert (Hb : isHasBodyRequest o = true)
    by (apply isHasBodyRequest_true; auto).
  assert (Hcl : JSObject.get "Content-Length" (requestHeaders o) = Some n).
  { unfold requestHeaders. rewrite Hb.
    apply JSObjectFacts.get_define_same. }
  assert (Hw : written (snd rt)
               = ([headerBytes o; (CRLF ++ CRLF)%string; baseChunk body]
                  ++ (if complete then [endChunk body] else []))%list).
  { destruct (request_established Date_parse o) as (Hw0 & Ha0 & _).
    unfold immediate_writes, delayed_write, before_last_unit, last_unit in Hw0, Ha0.
    rewrite Hb in Hw0, Ha0. fold body in Hw0, Ha0.
    subst complete rt.
    destruct (RequestOptions.targetTime o) as [t|].
    - destruct (truthy (Some t)).
      + destruct (run_release HTTPParser events _ _ _ Ha0) as (_ & Hw').
        rewrite Hw', Hw0, app_nil_r. reflexivity.
      + destruct (run_nothing_armed HTTPParser events _ Ha0) as (_ & Hw').
        rewrite Hw', Hw0. reflexivity.
    - change (truthy None) with false in Hw0.
      destruct (run_nothing_armed HTTPParser events _ Ha0) as (_ & Hw').
      rewrite Hw', Hw0. reflexivity. }
  split; [|split; [|split; [reflexivity|split; [exact Hw|split; [|split]]]]].
  - rewrite transmitted_iff_get.
    destruct (String.eqb_spec k "Content-Length") as [->|Hne].
    + rewrite Hcl. split.
      * intros [= <-]. now left.
      * intros [(_ & ->)|(Hne & _)]; [reflexivity|contradiction].
    + rewrite get_requestHeaders_merge by (auto || now left).
      rewrite (defaults_hold_no_length_header _ k Hsame).
      destruct (JSObject.get k (caller_headers o)) as [v'|].
      * split; [intros [= ->]; now right|].
        intros [(Heq & _)|(_ & Hv)]; [contradiction|exact Hv].
      * split; [discriminate|].
        intros [(Heq & _)|(_ & Hv)]; [contradiction|discriminate].
  - apply JSObjectFacts.filter_key_unique.
    + apply JSObjectFacts.entries_unique_keys, requestHeaders_unique_keys.
    + now apply transmitted_iff_get.
  - unfold written_bytes. rewrite Hw.
    destruct complete; cbn [app].
    + now rewrite concat_four, body_chunks.
    + now rewrite concat_three.
  - apply body_chunks.
  - now apply endChunk_length.
Qed.

Lemma body_request_witness :
  let o := options "POST" [("content-length", "7")] "ab"
             (Some (TNumber (Num 1000))) in
  let events := [IntervalFires 0 999; Data sample_response; IntervalFires 0 1000] in
  let body := effective_body o in
  let n := toString (String.length body) in
  let rt := run ModelParser.HTTPParser events
              (request sample_Date_parse o Established) in
  let complete :=
    match RequestOptions.targetTime o with
    | Some t =>
        if truthy (Some t)
        then existsb (releases (getTime sample_Date_parse t)) events
        else true
    | None => true
    end in
  (In ("content-length", "7") (JSObject.entries (requestHeaders o))
   <-> ("content-length" = "Content-Length" /\ "7" = n)
       \/ ("content-length" <> "Content-Length"
           /\ JSObject.get "content-length" (caller_headers o) = Some "7"))
  /\ filter (fun kv => String.eqb (fst kv) "Content-Length")
       (JSObject.entries (requestHeaders o))
     = [("Content-Length", n)]
  /\ headerBytes o
     = (effective_method o ++ " " ++ effective_path o ++ " HTTP/1.1" ++ CRLF)
       ++ String.concat CRLF
            (map (fun kv => fst kv ++ ": " ++ snd kv)
               (JSObject.entries (requestHeaders o)))
  /\ written (snd rt)
     = ([headerBytes o; (CRLF ++ CRLF)%string; baseChunk body]
        ++ (if complete then [endChunk body] else []))%list
  /\ written_bytes (snd rt)
     = headerBytes o ++ (CRLF ++ CRLF)
       ++ (if complete then body else baseChunk body)
  /\ baseChunk body ++ endChunk body = body
  /\ String.length (endChunk body) = 1.
Proof.
  apply (body_request_writes_head_terminator_body
           sample_Date_parse ModelParser.HTTPParser
           (options "POST" [("content-length", "7")] "ab"
              (Some (TNumber (Num 1000))))
           [IntervalFires 0 999; Data sample_response; IntervalFires 0 1000]
           "content-length" "7").
  - discriminate.
  - discriminate.
  - discriminate.
  - repeat constructor; simpl; tauto.
  - reflexivity.
Defined.

(** C5, as stated, fails in two ways.  A caller's header [content-length]
    is transmitted next to the computed [Content-Length], with another
    value.  And with a truthy target time that is no date the last byte of
    the body is never passed to [socket.write], whatever the clock reads. *)
Lemma body_request_with_two_lengths_or_without_last_byte :
  let two := options "POST" [("content-length", "7")] "a" None in
  let never := options "POST" [] "ab" (Some (TString "tomorrow")) in
  same_name_ignoring_case "content-length" "Content-Length"
  /\ JSObject.entries (requestHeaders two)
     = [("Host", "localhost"); ("Connection", "keep-alive");
        ("accept", "application/json"); ("content-length", "7");
        ("Content-Length", "1")]
  /\ written_bytes (snd (request sample_Date_parse two Established))
     = "POST / HTTP/1.1" ++ CRLF ++ "Host: localhost" ++ CRLF
       ++ "Connection: keep-alive" ++ CRLF ++ "accept: application/json" ++ CRLF
       ++ "content-length: 7" ++ CRLF ++ "Content-Length: 1" ++ CRLF ++ CRLF
       ++ "a"
  /\ truthy (RequestOptions.targetTime never) = true
  /\ written_bytes
       (snd (run ModelParser.HTTPParser
               [IntervalFires 0 0; IntervalFires 0 1764781420000;
                IntervalFires 0 8640000000000000]
               (request sample_Date_parse never Established)))
     = "POST / HTTP/1.1" ++ CRLF ++ "Host: localhost" ++ CRLF
       ++ "Connection: keep-alive" ++ CRLF ++ "accept: application/json" ++ CRLF
       ++ "Content-Length: 2" ++ CRLF ++ CRLF
       ++ "a".
Proof. repeat split. Qed.

Lemma ends_socket_call :
  forall (c : SocketCall) (w : World),
    ends (socket_call c w) = ends w + (if is_end c then 1 else 0).
Proof.
  intros c w; unfold ends, socket_call; cbn [socket].
  rewrite filter_app, length_app; simpl. now destruct (is_end c).
Qed.

Lemma step_ends :
  forall (HTTPParser : string -> ParserRun) (rt : Runtime) (ev : Event),
    listening (snd rt) = true ->
    ends (snd (step HTTPParser rt ev))
    = ends (snd rt) + (if is_data ev then 1 else 0).
Proof.
  intros HTTPParser [tm w] ev Hl; simpl in Hl.
  destruct ev as [chunk|e|h now]; simpl.
  - rewrite Hl; simpl. unfold on_data. now rewrite ends_socket_call.
  - rewrite Hl; simpl. unfold ends; simpl. lia.
  - destruct (find_interval h (armed tm)) as [[[d] t]|]; [|simpl; lia].
    simpl. destruct (js_ge now t); simpl; [|lia].
    now rewrite ends_socket_call.
Qed.

Lemma run_ends :
  forall (HTTPParser : string -> ParserRun) (events : list Event) (rt : Runtime),
    listening (snd rt) = true ->
    ends (snd (run HTTPParser events rt))
    = ends (snd rt) + List.length (filter is_data events).
Proof.
  intros HTTPParser events; induction events as [|ev events IH]; intros rt Hl.
  - simpl. lia.
  - change (run HTTPParser (ev :: events) rt)
      with (run HTTPParser events (step HTTPParser rt ev)).
    rewrite IH by (now rewrite step_listening).
    rewrite step_ends by exact Hl.
    simpl. destruct (is_data ev); simpl; lia.
Qed.

(** After a failed connection attempt no listener and no interval exists:
    no event changes anything. *)
Lemma run_inert :
  forall (HTTPParser : string -> ParserRun) (events : list Event) (rt : Runtime),
    listening (snd rt) = false ->
    armed (fst rt) = [] ->
    run HTTPParser events rt = rt.
Proof.
  intros HTTPParser events; induction events as [|ev events IH];
    intros [tm w] Hl Ha; [reflexivity|].
  change (run HTTPParser (ev :: events) (tm, w))
    with (run HTTPParser events (step HTTPParser (tm, w) ev)).
  assert (Hstep : step HTTPParser (tm, w) ev = (tm, w)).
  { simpl in Hl, Ha. destruct ev as [chunk|e|h now]; simpl.
    - now rewrite Hl.
    - now rewrite Hl.
    - now rewrite Ha. }
  rewrite Hstep. now apply IH.
Qed.

Lemma request_failed_state :
  forall (Date_parse : string -> JSNum) (_options : RequestOptions.t)
         (cause : JSError),
    listening (snd (request Date_parse _options (Failed cause))) = false
    /\ armed (fst (request Date_parse _options (Failed cause))) = []
    /\ ends (snd (request Date_parse _options (Failed cause))) = 0.
Proof.
  intros Date_parse o cause; unfold request, connect.
  now destruct (option_default false (RequestOptions.https o)).
Qed.

Lemma request_established_ends :
  forall (Date_parse : string -> JSNum) (_options : RequestOptions.t),
    ends (snd (request Date_parse _options Established)) = 0.
Proof.
  intros Date_parse o; unfold request, connect, sendHeader, sendBody.
  destruct (option_default false (RequestOptions.https o));
    destruct (isHasBodyRequest o);
    destruct (RequestOptions.targetTime o) as [t|];
    try destruct (truthy (Some t)); reflexivity.
Qed.

(** X5.  [socket.end()] is called once for every ['data'] event of a run,
    so again for every chunk after the first, and never otherwise; after a
    failed connection attempt it is never called. *)
Theorem socket_end_is_called_once_per_data_event :
  forall (Date_parse : string -> JSNum) (HTTPParser : string -> ParserRun)
         (_options : RequestOptions.t) (cause : JSError) (events : list Event),
    ends (snd (run HTTPParser events (request Date_parse _options Established)))
    = List.length (filter is_data events)
    /\ ends (snd (run HTTPParser events
                    (request Date_parse _options (Failed cause)))) = 0.
Proof.
  intros Date_parse HTTPParser o cause events. split.
  - destruct (request_established Date_parse o) as (_ & _ & _ & Hl & _).
    rewrite run_ends by exact Hl.
    now rewrite request_established_ends.
  - destruct (request_failed_state Date_parse o cause) as (Hl & Ha & He).
    now rewrite run_inert.
Qed.

Lemma step_received :
  forall (HTTPParser : string -> ParserRun) (rt : Runtime) (ev : Event),
    listening (snd rt) = true ->
    responseData (snd (step HTTPParser rt ev))
    = responseData (snd rt) ++ received [ev].
Proof.
  intros HTTPParser [tm w] ev Hl; simpl in Hl.
  destruct ev as [chunk|e|h now].
  - simpl. rewrite Hl; simpl. now rewrite append_nil_r.
  - simpl. rewrite Hl; simpl. now rewrite append_nil_r.
  - destruct (step_interval_world HTTPParser (tm, w) h now) as (_ & Hd).
    rewrite Hd; simpl. now rewrite append_nil_r.
Qed.

Lemma run_received :
  forall (HTTPParser : string -> ParserRun) (events : list Event) (rt : Runtime),
    listening (snd rt) = true ->
    responseData (snd (run HTTPParser events rt))
    = responseData (snd rt) ++ received events.
Proof.
  intros HTTPParser events; induction events as [|ev events IH]; intros rt Hl.
  - simpl. now rewrite append_nil_r.
  - change (run HTTPParser (ev :: events) rt)
      with (run HTTPParser events (step HTTPParser rt ev)).
    rewrite IH by (now rewrite step_listening).
    rewrite step_received by exact Hl.
    rewrite append_assoc. f_equal.
    destruct ev; simpl; now rewrite ?append_nil_r.
Qed.

(** X6.  The buffer [responseData] of a request holds the bytes of all
    ['data'] events so far, in order of arrival; errors and interval checks
    in between leave it alone, and it keeps growing after the promise has
    been resolved. *)
Theorem responseData_accumulates_every_chunk :
  forall (Date_parse : string -> JSNum) (HTTPParser : string -> ParserRun)
         (_options : RequestOptions.t) (events : list Event),
    responseData (snd (run HTTPParser events
                         (request Date_parse _options Established)))
    = received events.
Proof.
  intros Date_parse HTTPParser o events.
  destruct (request_established Date_parse o) as (_ & _ & _ & Hl & Hd).
  rewrite run_received by exact Hl. now rewrite Hd.
Qed.

(** X7.  The delayed write does not look at the state of the socket: when
    the response arrives before the target time, [socket.end()] is called
    first and the due check still writes the last unit afterwards. *)
Theorem delayed_write_follows_socket_end :
  forall (Date_parse : string -> JSNum) (HTTPParser : string -> ParserRun)
         (_options : RequestOptions.t) (t : Time) (chunk : string) (now : Z),
    RequestOptions.targetTime _options = Some t ->
    truthy (Some t) = true ->
    js_ge now (getTime Date_parse t) = true ->
    socket (snd (run HTTPParser [Data chunk; IntervalFires 0 now]
                   (request Date_parse _options Established)))
    = (socket (snd (request Date_parse _options Established))
       ++ [SocketEnd; SocketWrite (last_unit _options)])%list.
Proof.
  intros Date_parse HTTPParser o t chunk now Ht Htruthy Hdue.
  destruct (request_established Date_parse o) as (_ & Ha & _ & Hl & _).
  unfold delayed_write in Ha. rewrite Ht, Htruthy in Ha.
  destruct (request Date_parse o Established) as [tm w].
  simpl in Ha, Hl. unfold run; simpl.
  rewrite Hl; simpl. rewrite Ha; simpl. rewrite Hdue; simpl.
  now rewrite <- app_assoc.
Qed.

Lemma delayed_write_follows_socket_end_witness :
  let o := options "GET" [] "" (Some (TDate (Num 1764781420000))) in
  socket (snd (run ModelParser.HTTPParser
                 [Data sample_response; IntervalFires 0 1764781420003]
                 (request sample_Date_parse o Established)))
  = (socket (snd (request sample_Date_parse o Established))
     ++ [SocketEnd; SocketWrite (last_unit o)])%list.
Proof.
  apply (delayed_write_follows_socket_end
           sample_Date_parse ModelParser.HTTPParser
           (options "GET" [] "" (Some (TDate (Num 1764781420000))))
           (TDate (Num 1764781420000)) sample_response 1764781420003%Z);
    reflexivity.
Defined.

(** ** Further properties of [parseResponse] *)

(** The response depends on the parser through its callbacks alone. *)
Lemma parseResponse_callbacks :
  forall (HTTPParser : string -> ParserRun) (rawResponse : string),
    parseResponse HTTPParser rawResponse
    = response_of
        (fold_left on_callback (callbacks_run (HTTPParser rawResponse))
           ResponseState.initial).
Proof.
  intros P raw; unfold parseResponse, parseResponse_caught, callbacks_run.
  destruct (execute_result (P raw)) as [n|e|e].
  - rewrite fold_left_app. destruct (finish_threw (P raw)); [reflexivity|].
    now destruct (_ =? 0)%Z.
  - rewrite fold_left_app. now destruct (finish_threw (P raw)).
  - now rewrite app_nil_r.
Qed.

Lemma headers_fold :
  forall (calls : list ParserEvent) (st : ResponseState.t),
    ResponseState.headers (fold_left on_callback calls st)
    = fold_left (fun h kv => JSObject.assign (toLowerCase (fst kv)) (snd kv) h)
        (reported_headers calls) (ResponseState.headers st).
Proof.
  induction calls as [|ev calls IH]; intros st; [reflexivity|].
  cbn [fold_left]. rewrite IH.
  destruct ev as [info|chunk off len|]; cbn [reported_headers flat_map];
    [|reflexivity|reflexivity].
  now rewrite fold_left_app.
Qed.

Lemma bodyChunks_fold :
  forall (calls : list ParserEvent) (st : ResponseState.t),
    ResponseState.bodyChunks (fold_left on_callback calls st)
    = (ResponseState.bodyChunks st ++ body_slices calls)%list.
Proof.
  induction calls as [|ev calls IH]; intros st; cbn [fold_left].
  - simpl. now rewrite app_nil_r.
  - rewrite IH. destruct ev as [info|chunk off len|]; simpl;
      [reflexivity| |reflexivity].
    now rewrite <- app_assoc.
Qed.

Lemma body_fold_incomplete :
  forall (calls : list ParserEvent) (st : ResponseState.t),
    existsb is_message_complete calls = false ->
    ResponseState.body (fold_left on_callback calls st) = ResponseState.body st.
Proof.
  induction calls as [|ev calls IH]; intros st Hnone; [reflexivity|].
  cbn [fold_left]. simpl in Hnone. apply orb_false_iff in Hnone as (Hev & Hrest).
  rewrite IH by exact Hrest.
  destruct ev; [reflexivity|reflexivity|discriminate].
Qed.

Lemma get_fold_assign :
  forall (name : string) (hs : list (string * string)) (h : JSObject.t),
    name <> "__proto__" ->
    JSObject.get name
      (fold_left (fun h kv => JSObject.assign (toLowerCase (fst kv)) (snd kv) h)
         hs h)
    = match last_value name hs with
      | Some v => Some v
      | None => JSObject.get name h
      end.
Proof.
  intros name hs; induction hs as [|[k v] hs IH]; intros h Hname;
    [reflexivity|].
  cbn [fold_left last_value fst snd]. rewrite IH by exact Hname.
  destruct (last_value name hs); [reflexivity|].
  unfold JSObject.assign.
  destruct (String.eqb_spec (toLowerCase k) name) as [->|Hne].
  - destruct (String.eqb_spec name "__proto__"); [contradiction|].
    apply JSObjectFacts.get_define_same.
  - destruct (String.eqb (toLowerCase k) "__proto__"); [reflexivity|].
    apply JSObjectFacts.get_define_other. congruence.
Qed.

Lemma get_proto_fold_assign :
  forall (hs : list (string * string)) (h : JSObject.t),
    JSObject.get "__proto__"
      (fold_left (fun h kv => JSObject.assign (toLowerCase (fst kv)) (snd kv) h)
         hs h)
    = JSObject.get "__proto__" h.
Proof.
  induction hs as [|[k v] hs IH]; intros h; [reflexivity|].
  cbn [fold_left fst snd]. rewrite IH. unfold JSObject.assign.
  destruct (String.eqb_spec (toLowerCase k) "__proto__") as [E|Hne];
    [reflexivity|].
  apply JSObjectFacts.get_define_other. congruence.
Qed.

Lemma lower_ascii_idempotent :
  forall c : ascii, lower_ascii (lower_ascii c) = lower_ascii c.
Proof. intros [[] [] [] [] [] [] [] []]; reflexivity. Qed.

Lemma toLowerCase_idempotent :
  forall s : string, toLowerCase (toLowerCase s) = toLowerCase s.
Proof.
  induction s as [|c s IH]; simpl; [reflexivity|].
  now rewrite lower_ascii_idempotent, IH.
Qed.

Lemma keys_fold_assign :
  forall (hs : list (string * string)) (h : JSObject.t),
    Forall (fun k => toLowerCase k = k) (map fst h) ->
    NoDup (map fst h) ->
    let h' :=
      fold_left (fun h kv => JSObject.assign (toLowerCase (fst kv)) (snd kv) h)
        hs h in
    Forall (fun k => toLowerCase k = k) (map fst h') /\ NoDup (map fst h').
Proof.
  induction hs as [|[k v] hs IH]; intros h Hlow Hnd; [now split|].
  cbn [fold_left fst snd]. apply IH.
  - unfold JSObject.assign.
    destruct (String.eqb (toLowerCase k) "__proto__"); [exact Hlow|].
    apply Forall_forall; intros x Hin.
    apply JSObjectFacts.in_keys_define in Hin as [->|Hin].
    + apply toLowerCase_idempotent.
    + rewrite Forall_forall in Hlow. now apply Hlow.
  - now apply JSObjectFacts.assign_unique_keys.
Qed.

(** X8.  Header names of the response are compared in lower case and a
    later header replaces an earlier one of the same name: looking a name up
    in the result gives the value of the last reported header with that
    name up to letter case, and nothing when there is none. *)
Theorem response_header_lookup_gives_the_last_value :
  forall (HTTPParser : string -> ParserRun) (rawResponse name : string),
    name <> "__proto__" ->
    JSObject.get name (HttpResponse.headers (parseResponse HTTPParser rawResponse))
    = last_value name (reported_headers (callbacks_run (HTTPParser rawResponse))).
Proof.
  intros P raw name Hname.
  rewrite parseResponse_callbacks; cbn [response_of HttpResponse.headers].
  rewrite headers_fold, get_fold_assign by exact Hname.
  now destruct (last_value name _).
Qed.

Lemma response_header_lookup_witness :
  JSObject.get "set-cookie"
    (HttpResponse.headers (parseResponse ModelParser.HTTPParser two_cookies_response))
  = last_value "set-cookie"
      (reported_headers (callbacks_run (ModelParser.HTTPParser two_cookies_response))).
Proof.
  apply (response_header_lookup_gives_the_last_value
           ModelParser.HTTPParser two_cookies_response "set-cookie").
  discriminate.
Defined.

(** X9.  A response header named [__proto__], in any letter case, never
    becomes a key of the result. *)
Theorem response_header_proto_is_dropped :
  forall (HTTPParser : string -> ParserRun) (rawResponse : string),
    JSObject.get "__proto__"
      (HttpResponse.headers (parseResponse HTTPParser rawResponse))
    = None.
Proof.
  intros P raw.
  rewrite parseResponse_callbacks; cbn [response_of HttpResponse.headers].
  now rewrite headers_fold, get_proto_fold_assign.
Qed.

(** X10.  Every key of the headers of the result is in lower case, and no
    key occurs twice. *)
Theorem response_header_names_are_lower_case_and_unique :
  forall (HTTPParser : string -> ParserRun) (rawResponse : string),
    Forall (fun k => toLowerCase k = k)
      (map fst (HttpResponse.headers (parseResponse HTTPParser rawResponse)))
    /\ NoDup (map fst (HttpResponse.headers (parseResponse HTTPParser rawResponse))).
Proof.
  intros P raw.
  rewrite parseResponse_callbacks; cbn [response_of HttpResponse.headers].
  rewrite headers_fold.
  apply keys_fold_assign; constructor.
Qed.

(** X11.  Without a message-complete callback the body of the result is
    empty, whatever body slices the parser has handed over. *)
Theorem body_is_empty_without_message_complete :
  forall (HTTPParser : string -> ParserRun) (rawResponse : string),
    existsb is_message_complete (callbacks_run (HTTPParser rawResponse)) = false ->
    HttpResponse.body (parseResponse HTTPParser rawResponse) = "".
Proof.
  intros P raw Hnone.
  rewrite parseResponse_callbacks; cbn [response_of HttpResponse.body].
  now rewrite body_fold_incomplete.
Qed.

Lemma body_is_empty_witness :
  HttpResponse.body (parseResponse ModelParser.HTTPParser sample_response_head) = "".
Proof.
  apply (body_is_empty_without_message_complete
           ModelParser.HTTPParser sample_response_head).
  vm_compute; reflexivity.
Defined.

Lemma Buffer_toString_ascii :
  forall bytes : string, all_ascii bytes = true -> Buffer_toString bytes = bytes.
Proof.
  unfold Buffer_toString.
  induction bytes as [|b rest IH]; simpl; intros Hascii; [reflexivity|].
  apply andb_true_iff in Hascii as (Hb & Hrest).
  unfold utf8_start. rewrite Hb. now rewrite IH.
Qed.

(** X12.  The body of the result is the UTF-8 decoding of the concatenation
    of all body slices handed over before the last message-complete
    callback, so the concatenation itself when all its bytes are ASCII;
    slices that come after that callback are left out. *)
Theorem body_is_the_slices_before_the_last_message_complete :
  forall (HTTPParser : string -> ParserRun) (rawResponse : string)
         (before after : list ParserEvent),
    callbacks_run (HTTPParser rawResponse)
    = (before ++ kOnMessageComplete :: after)%list ->
    existsb is_message_complete after = false ->
    HttpResponse.body (parseResponse HTTPParser rawResponse)
    = Buffer_toString (String.concat "" (body_slices before))
    /\ (all_ascii (String.concat "" (body_slices before)) = true ->
        HttpResponse.body (parseResponse HTTPParser rawResponse)
        = String.concat "" (body_slices before)).
Proof.
  intros P raw before after Hcalls Hafter.
  assert (Hbody : HttpResponse.body (parseResponse P raw)
                  = Buffer_toString (String.concat "" (body_slices before))).
  { rewrite parseResponse_callbacks, Hcalls; cbn [response_of HttpResponse.body].
    rewrite fold_left_app. cbn [fold_left].
    rewrite body_fold_incomplete by exact Hafter.
    cbn [on_callback ResponseState.body].
    rewrite bodyChunks_fold;
      cbn [ResponseState.initial ResponseState.bodyChunks app].
    now destruct (body_slices before). }
  split; [exact Hbody|].
  intros Hascii. rewrite Hbody. now apply Buffer_toString_ascii.
Qed.

Lemma body_slices_witness :
  HttpResponse.body (parseResponse ModelParser.HTTPParser chunked_response)
  = Buffer_toString
      (String.concat ""
         (body_slices
            (firstn 2 (callbacks_run (ModelParser.HTTPParser chunked_response)))))
  /\ (all_ascii
        (String.concat ""
           (body_slices
              (firstn 2 (callbacks_run (ModelParser.HTTPParser chunked_response)))))
      = true ->
      HttpResponse.body (parseResponse ModelParser.HTTPParser chunked_response)
      = String.concat ""
          (body_slices
             (firstn 2 (callbacks_run (ModelParser.HTTPParser chunked_response))))).
Proof.
  apply (body_is_the_slices_before_the_last_message_complete
           ModelParser.HTTPParser chunked_response
           (firstn 2 (callbacks_run (ModelParser.HTTPParser chunked_response)))
           []).
  - vm_compute; reflexivity.
  - reflexivity.
Defined.

(** X13.  What the parser reports besides its callbacks never reaches the
    caller: two parser runs that fire the same callbacks give the same
    response, whether [execute] returned a byte count or an error and
    whether [finish] threw. *)
Theorem parser_errors_do_not_change_the_response :
  forall (P Q : string -> ParserRun) (rawResponse : string),
    callbacks_run (P rawResponse) = callbacks_run (Q rawResponse) ->
    parseResponse P rawResponse = parseResponse Q rawResponse.
Proof.
  intros P Q raw Hsame.
  now rewrite !parseResponse_callbacks, Hsame.
Qed.

Lemma parser_errors_witness :
  parseResponse ModelParser.HTTPParser sample_response
  = parseResponse (erring ModelParser.HTTPParser) sample_response.
Proof.
  apply (parser_errors_do_not_change_the_response
           ModelParser.HTTPParser (erring ModelParser.HTTPParser) sample_response).
  vm_compute; reflexivity.
Defined.

(** ** The order of the header lines *)

Lemma keys_define_extend :
  forall (k v : string) (o : JSObject.t),
    exists tail, map fst (JSObject.define k v o) = (map fst o ++ tail)%list.
Proof.
  intros k v o; induction o as [|[k' v'] o IH]; simpl.
  - now exists [k].
  - destruct (String.eqb_spec k k') as [->|Hne]; simpl.
    + exists []. now rewrite app_nil_r.
    + destruct IH as [tail ->]. now exists tail.
Qed.

Lemma keys_fold_define_extend :
  forall l target : JSObject.t,
    exists tail,
      map fst (fold_left (fun acc kv => JSObject.define (fst kv) (snd kv) acc)
                 l target)
      = (map fst target ++ tail)%list.
Proof.
  induction l as [|[k v] l IH]; intros target; simpl.
  - exists []. now rewrite app_nil_r.
  - destruct (IH (JSObject.define k v target)) as [tail ->].
    destruct (keys_define_extend k v target) as [tail' ->].
    exists (tail' ++ tail)%list. now rewrite app_assoc.
Qed.

Lemma requestHeaders_begin_with_the_defaults :
  forall _options : RequestOptions.t,
    exists vh vc va rest,
      requestHeaders _options
      = ("Host", vh) :: ("Connection", vc) :: ("accept", va) :: rest.
Proof.
  intros o.
  assert (Hkeys : exists tail,
             map fst (requestHeaders o)
             = ("Host" :: "Connection" :: "accept" :: tail)%list).
  { unfold requestHeaders, JSObject.spread.
    destruct (keys_fold_define_extend
                (JSObject.entries (option_default JSObject.empty (RequestOptions.headers o)))
                (defaultHeaders (RequestOptions.host o))) as [tail Htail].
    destruct (isHasBodyRequest o).
    - unfold JSObject.assign; simpl String.eqb; cbv iota.
      destruct (keys_define_extend "Content-Length"
                  (toString (String.length (option_default "" (RequestOptions.body o))))
                  (fold_left (fun acc kv => JSObject.define (fst kv) (snd kv) acc)
                     (JSObject.entries (option_default JSObject.empty (RequestOptions.headers o)))
                     (defaultHeaders (RequestOptions.host o)))) as [tail' ->].
      rewrite Htail. now exists (tail ++ tail')%list.
    - rewrite Htail. now exists tail. }
  destruct Hkeys as [tail Hkeys].
  destruct (requestHeaders o) as [|[k1 v1] [|[k2 v2] [|[k3 v3] rest]]];
    simpl in Hkeys; try discriminate.
  injection Hkeys as -> -> -> _.
  now exists v1, v2, v3, rest.
Qed.

Lemma index_entries_are_indices :
  forall o : JSObject.t,
    Forall (fun p => JSObject.array_index (fst (snd p)) = Some (fst p))
      (JSObject.index_entries o).
Proof.
  induction o as [|kv o IH]; simpl; [constructor|].
  destruct (JSObject.array_index (fst kv)) as [i|] eqn:Hi; [|exact IH].
  eapply Permutation_Forall;
    [apply Permutation_sym, JSObjectFacts.insert_index_perm|].
  now constructor.
Qed.

(** X14.  The header lines go out in the order of [Object.entries]: first
    the headers whose name is an array index, then Host, Connection and
    accept in this order, then the remaining headers, none of which has an
    array index as its name. *)
Theorem header_lines_put_the_defaults_before_other_names :
  forall _options : RequestOptions.t,
    exists indexed vh vc va rest,
      JSObject.entries (requestHeaders _options)
      = (indexed
         ++ ("Host", vh) :: ("Connection", vc) :: ("accept", va) :: rest)%list
      /\ Forall (fun kv => JSObject.array_index (fst kv) <> None) indexed
      /\ Forall (fun kv => JSObject.array_index (fst kv) = None) rest.
Proof.
  intros o.
  destruct (requestHeaders_begin_with_the_defaults o) as (vh & vc & va & tail & ->).
  exists (map snd (JSObject.index_entries tail)), vh, vc, va,
         (JSObject.named_entries tail).
  split; [reflexivity|]. split.
  - apply Forall_forall; intros kv Hin.
    apply in_map_iff in Hin as ([i kv'] & <- & Hin).
    pose proof (index_entries_are_indices tail) as Hall.
    rewrite Forall_forall in Hall. specialize (Hall _ Hin); simpl in *.
    congruence.
  - apply Forall_forall; intros kv Hin.
    unfold JSObject.named_entries in Hin. apply filter_In in Hin as (_ & Hkv).
    now destruct (JSObject.array_index (fst kv)).
Qed.
